(** * ShX shell: tokenizer, redirection extractor, completion engine,
      line reader and dispatcher, embedded from [tracker.go]. *)

From Stdlib Require Import String Ascii List Bool Arith NArith Lia Permutation
  Sorted.
From stdpp Require Import base option list strings gmap sets.

Import ListNotations.
Local Open Scope string_scope.
Local Open Scope list_scope.

(** Go strings are byte sequences; [string] is a sequence of 8-bit [ascii]. *)

Definition writeByte (s : string) (c : ascii) : string := s ++ String c "".

Definition chr (n : nat) : ascii := ascii_of_nat n.

Definition TAB : ascii := chr 9.
Definition LF : ascii := chr 10.
Definition VT : ascii := chr 11.
Definition FF : ascii := chr 12.
Definition CR : ascii := chr 13.
Definition SPACE : ascii := " "%char.
Definition DQUOTE : ascii := chr 34.
Definition DOLLAR : ascii := "$"%char.
Definition SQUOTE : ascii := "'"%char.
Definition BACKSLASH : ascii := "\"%char.
Definition BACKTICK : ascii := "`"%char.

(** ** Tokenizer: [parseCommand] *)

Module Tokenizer.

(** The loop state of [parseCommand]: the slice [result], the builder
    [current] and the three flags. *)
Record state := State {
  result : list string;
  current : string;
  inSingleQuote : bool;
  inDoubleQuote : bool;
  escaped : bool
}.

Definition init : state := State [] "" false false false.

Definition write (c : ascii) (st : state) : state :=
  State (result st) (writeByte (current st) c)
        (inSingleQuote st) (inDoubleQuote st) (escaped st).

Definition setEscaped (b : bool) (st : state) : state :=
  State (result st) (current st) (inSingleQuote st) (inDoubleQuote st) b.

Definition toggleSingle (st : state) : state :=
  State (result st) (current st) (negb (inSingleQuote st))
        (inDoubleQuote st) (escaped st).

Definition toggleDouble (st : state) : state :=
  State (result st) (current st) (inSingleQuote st)
        (negb (inDoubleQuote st)) (escaped st).

(** [if current.Len() > 0 { result = append(result, current.String());
    current.Reset() }] *)
Definition flush (st : state) : state :=
  match current st with
  | "" => st
  | _ => State (result st ++ [current st]) ""
               (inSingleQuote st) (inDoubleQuote st) (escaped st)
  end.

(** The characters a backslash escapes inside double quotes. *)
Definition dqEscapable (c : ascii) : bool :=
  Ascii.eqb c DOLLAR || Ascii.eqb c BACKTICK || Ascii.eqb c DQUOTE
  || Ascii.eqb c BACKSLASH || Ascii.eqb c LF.

(** One iteration of the [for] loop over the bytes of the command. *)
Definition step (st : state) (c : ascii) : state :=
  if escaped st then
    let st1 := if inDoubleQuote st && negb (dqEscapable c)
               then write BACKSLASH st else st in
    setEscaped false (write c st1)
  else if Ascii.eqb c BACKSLASH then
    if inSingleQuote st then write c st else setEscaped true st
  else if Ascii.eqb c SQUOTE then
    if negb (inDoubleQuote st) then toggleSingle st else write c st
  else if Ascii.eqb c DQUOTE then
    if negb (inSingleQuote st) then toggleDouble st else write c st
  else if Ascii.eqb c SPACE then
    if negb (inSingleQuote st) && negb (inDoubleQuote st)
    then flush st else write c st
  else write c st.

Fixpoint scan (st : state) (s : string) : state :=
  match s with
  | "" => st
  | String c s' => scan (step st c) s'
  end.

Definition parseCommand (command : string) : list string :=
  result (flush (scan init command)).

(** The scanner is outside every quote and no escape is pending. *)
Definition unquoted (st : state) : Prop :=
  inSingleQuote st = false /\ inDoubleQuote st = false /\ escaped st = false.

Definition unquotedAfter (pre : string) : Prop := unquoted (scan init pre).

Fixpoint spaces (n : nat) : string :=
  match n with
  | O => ""
  | S k => String SPACE (spaces k)
  end.

(** ASCII white space as [unicode.IsSpace] has it below U+0080. *)
Definition isWhitespace (c : ascii) : bool :=
  Ascii.eqb c SPACE || Ascii.eqb c TAB || Ascii.eqb c LF
  || Ascii.eqb c VT || Ascii.eqb c FF || Ascii.eqb c CR.

(** The separator property as the specification words it: every unquoted
    white-space character separates tokens. *)
Definition whitespaceSeparates : Prop :=
  forall (c : ascii) (pre post : string),
    isWhitespace c = true -> unquotedAfter pre ->
    parseCommand (pre ++ String c post) = parseCommand pre ++ parseCommand post.

(** [prepend r0 st] is [st] started with [r0] already in [result]. *)
Definition prepend (r0 : list string) (st : state) : state :=
  State (r0 ++ result st) (current st)
        (inSingleQuote st) (inDoubleQuote st) (escaped st).

(** No empty string among the tokens emitted so far. *)
Definition noEmpty (st : state) : Prop := ~ In "" (result st).

(** Every byte of [s] passes the test [p]. *)
Fixpoint allBytes (p : ascii -> bool) (s : string) : bool :=
  match s with
  | "" => true
  | String c s' => p c && allBytes p s'
  end.

(** The byte [c] does not occur in [s]. *)
Definition noByte (c : ascii) (s : string) : bool :=
  allBytes (fun b => negb (Ascii.eqb b c)) s.

(** A byte that is no space, no quote and no backslash, and a non-empty
    word of such bytes. *)
Definition plainByte (c : ascii) : bool :=
  negb (Ascii.eqb c BACKSLASH || Ascii.eqb c SQUOTE
        || Ascii.eqb c DQUOTE || Ascii.eqb c SPACE).

Definition plainWord (w : string) : bool :=
  negb (String.eqb w "") && allBytes plainByte w.

(** The number of bytes written so far, to finished tokens and to the
    builder. *)
Definition emitted (st : state) : nat :=
  list_sum (map String.length (result st)) + String.length (current st).

(** The flags the scanner can hold together: inside single quotes it is not
    inside double quotes and no escape is pending. *)
Definition consistent (st : state) : Prop :=
  inSingleQuote st = true -> inDoubleQuote st = false /\ escaped st = false.

End Tokenizer.

(** ** Streams, files and the trace of what the shell does *)

(** The shell's own standard streams. *)
Inductive stream := Stdout | Stderr.

(** Where a write goes: one of the shell's own streams, or an open file. *)
Inductive sink :=
| Console (s : stream)
| File (path : string).

(** The handlers of the builtin table; their bodies are collaborators the
    dispatcher calls by name. *)
Inductive handler :=
| exitHandler | echoHandler | typeHandler | pwdHandler | cdHandler
| clearHandler | lsHandler | catHandler | cpHandler | mvHandler
| rmHandler | mkdirHandler | rmdirHandler.

Inductive event :=
| Write (to : stream) (text : string)
    (* text written to one of the shell's own streams *)
| Invoke (h : handler) (args : list string) (out err : sink)
    (* [handler(args)] run while [os.Stdout = out] and [os.Stderr = err] *)
| Spawn (path : string) (args : list string) (out err : sink).
    (* [cmd.Run()] of a resolved executable, with its two streams *)

Record dirEntry := DirEntry { Name : string; IsDir : bool }.

(** What the operating system answers. *)
Record world := World {
  lookPath : string -> option string;
    (* [exec.LookPath]: the resolved path, or [None] on failure *)
  openError : string -> option string;
    (* the error text when a path cannot be opened for writing *)
  runError : string -> list string -> bool;
    (* [cmd.Run()] of a started process returns an error *)
  pathEnv : string;
    (* [os.Getenv] of the search-path variable *)
  readDir : string -> option (list dirEntry)
    (* [os.ReadDir]: the entries, or [None] on error *)
}.

(** The state the shell threads through one command: file contents by path
    and the trace of console writes, handler calls and spawns. The files are
    what the shell itself opens and writes: what a called handler or a
    spawned process does to them is not followed, so after an [Invoke] or a
    [Spawn] event the files are those at the moment of the call. *)
Record shell := Shell {
  files : gmap string string;
  trace : list event
}.

Definition NL : string := String LF "".

Definition record (e : event) (sh : shell) : shell :=
  Shell (files sh) (trace sh ++ [e]).

(** [fmt.Fprintln] to one of the shell's own streams. *)
Definition fprintln (to : stream) (text : string) (sh : shell) : shell :=
  record (Write to (text +:+ NL)) sh.

(** [fmt.Fprintln] to an open file: the text is added at its end. *)
Definition fprintlnFile (path : string) (text : string) (sh : shell) : shell :=
  Shell (alter (fun content => content +:+ text +:+ NL) path (files sh))
        (trace sh).

(** ** Redirection extractor: [processRedirectionOperators] *)

Module Redirect.

Record extraction := Extraction {
  fields : list string;
  stdoutFile : string;
  stderrFile : string;
  stdoutAppend : bool;
  stderrAppend : bool
}.

(** The four cases of the [switch] over the token. *)
Inductive operator := OutAppend | OutTruncate | ErrTruncate | ErrAppend.

Definition operatorOf (token : string) : option operator :=
  if String.eqb token ">>" || String.eqb token "1>>" then Some OutAppend
  else if String.eqb token ">" || String.eqb token "1>" then Some OutTruncate
  else if String.eqb token "2>" then Some ErrTruncate
  else if String.eqb token "2>>" then Some ErrAppend
  else None.

Definition isOperator (token : string) : bool :=
  match operatorOf token with Some _ => true | None => false end.

(** The assignments of each case. *)
Definition assign (op : operator) (target : string) (ex : extraction)
  : extraction :=
  match op with
  | OutAppend =>
      Extraction (fields ex) target (stderrFile ex) true (stderrAppend ex)
  | OutTruncate =>
      Extraction (fields ex) target (stderrFile ex)
                 (stdoutAppend ex) (stderrAppend ex)
  | ErrTruncate =>
      Extraction (fields ex) (stdoutFile ex) target
                 (stdoutAppend ex) (stderrAppend ex)
  | ErrAppend =>
      Extraction (fields ex) (stdoutFile ex) target (stdoutAppend ex) true
  end.

Definition keep (token : string) (ex : extraction) : extraction :=
  Extraction (fields ex ++ [token]) (stdoutFile ex) (stderrFile ex)
             (stdoutAppend ex) (stderrAppend ex).

Definition start : extraction := Extraction [] "" "" false false.

(** The [for] loop from index [i] on, given the tokens from [i]; [None] is
    the early return of a case whose [i+1 >= len(fields)]. *)
Fixpoint loop (ex : extraction) (rest : list string) : option extraction :=
  match rest with
  | [] => Some ex
  | token :: rest1 =>
      match operatorOf token with
      | Some op =>
          match rest1 with
          | [] => None
          | target :: rest2 => loop (assign op target ex) rest2
          end
      | None => loop (keep token ex) rest1
      end
  end.

Definition extract (tokens : list string) : option extraction :=
  loop start tokens.

Definition syntaxError : string :=
  "syntax error: no file specified for redirection".

Definition processRedirectionOperators (tokens : list string) (sh : shell)
  : extraction * shell :=
  match extract tokens with
  | Some ex => (ex, sh)
  | None => (Extraction [] "" "" false false, fprintln Stderr syntaxError sh)
  end.

(** The operator tokens and the targets the loop takes out, in order. *)
Fixpoint consumed (rest : list string) : list string :=
  match rest with
  | [] => []
  | token :: rest1 =>
      match operatorOf token with
      | Some _ =>
          match rest1 with
          | [] => []
          | target :: rest2 => token :: target :: consumed rest2
          end
      | None => consumed rest1
      end
  end.

(** The operator is one of standard output. *)
Definition isOut (op : operator) : bool :=
  match op with OutAppend | OutTruncate => true | _ => false end.

(** The target an extraction records for the stream of [o]. *)
Definition targetOf (o : operator) (ex : extraction) : string :=
  if isOut o then stdoutFile ex else stderrFile ex.

(** The token is an operator of the stream of [o]. *)
Definition sameStream (o : operator) (token : string) : bool :=
  match operatorOf token with
  | Some o' => Bool.eqb (isOut o') (isOut o)
  | None => false
  end.

(** The token is no redirection operator. *)
Definition plainToken (token : string) : bool := negb (isOperator token).

End Redirect.

(** ** Dispatcher: the body of the loop of [main] after tokenizing *)

Module Dispatch.
Import Redirect.

(** The map literal [builtins] of [main]. *)
Definition builtins : gmap string handler :=
  list_to_map
    [ ("exit", exitHandler); ("echo", echoHandler); ("type", typeHandler);
      ("pwd", pwdHandler); ("cd", cdHandler); ("clear", clearHandler);
      ("ls", lsHandler); ("cat", catHandler); ("cp", cpHandler);
      ("mv", mvHandler); ("rm", rmHandler); ("mkdir", mkdirHandler);
      ("rmdir", rmdirHandler) ].

(** The map literal [builtins] local to the function [typeHandler]. *)
Definition typeBuiltins : gmap string bool :=
  list_to_map
    [ ("echo", true); ("exit", true); ("type", true); ("pwd", true);
      ("cd", true) ].

(** The body of the function [typeHandler]: the line it prints with
    [fmt.Println]. A key absent from a Go map reads as [false]. *)
Definition runTypeHandler (w : world) (args : list string) : string :=
  match args with
  | _ :: cmd :: _ =>
      if default false (typeBuiltins !! cmd)
      then cmd +:+ " is a shell builtin" +:+ NL
      else match lookPath w cmd with
           | Some path => cmd +:+ " is " +:+ path +:+ NL
           | None => cmd +:+ ": not found" +:+ NL
           end
  | _ => "type: missing argument" +:+ NL
  end.

(** [openFile]: append mode creates the file when absent and keeps its
    content; otherwise [os.Create] creates or truncates it. The result is the
    state with the file open, or the error. *)
Definition openFile (w : world) (fileName : string) (appendMode : bool)
    (sh : shell) : shell + string :=
  match openError w fileName with
  | Some err => inr err
  | None =>
      let fs := files sh in
      let fs1 :=
        if appendMode
        then match fs !! fileName with
             | Some _ => fs
             | None => <[fileName := ""]> fs
             end
        else <[fileName := ""]> fs in
      inl (Shell fs1 (trace sh))
  end.

Definition stdoutOpenError : string :=
  "Error opening file for stdout redirection: ".
Definition stderrOpenError : string :=
  "Error opening file for stderr redirection: ".

(** The two [if file != ...] blocks shared by the builtin and the external
    path: the sink a stream is wired to, or the state after the report of
    the open error. *)
Definition wire (w : world) (own : stream) (report : string)
    (fileName : string) (appendMode : bool) (sh : shell)
  : (sink * shell) + shell :=
  if String.eqb fileName "" then inl (Console own, sh)
  else match openFile w fileName appendMode sh with
       | inr err => inr (fprintln Stderr (report +:+ err) sh)
       | inl sh1 => inl (File fileName, sh1)
       end.

(** The call [handler(args)] is the event [Invoke]; the state returned is
    the one in which the handler is called. *)
Definition executeBuiltinWithRedirection (w : world) (h : handler)
    (args : list string) (stdoutFile stderrFile : string)
    (stdoutAppend stderrAppend : bool) (sh : shell) : shell :=
  match wire w Stdout stdoutOpenError stdoutFile stdoutAppend sh with
  | inr sh1 => sh1
  | inl (out, sh1) =>
      match wire w Stderr stderrOpenError stderrFile stderrAppend sh1 with
      | inr sh2 => sh2
      | inl (err, sh2) => record (Invoke h args out err) sh2
      end
  end.

Definition notFound (cmdName : string) : string :=
  cmdName +:+ ": command not found".

(** [executeCommand]: [exec.Command] resolves the name; [cmd.Run] fails
    without a process when the resolution failed, and also when the process
    ran and [runError] holds. The report goes through [fmt.Println]. The run of the
    process is the event [Spawn]; what the process does to files is not
    followed. *)
Definition executeCommand (w : world) (fields : list string) (sh : shell)
  : shell :=
  match fields with
  | [] => sh
  | name :: args =>
      match lookPath w name with
      | None => fprintln Stdout (notFound name) sh
      | Some path =>
          let sh1 := record (Spawn path args (Console Stdout) (Console Stderr)) sh in
          if runError w path args
          then fprintln Stdout (notFound name) sh1
          else sh1
      end
  end.

Definition outputError (w : world) (cmdName stderrFile : string)
    (appendMode : bool) (sh : shell) : shell :=
  let message := notFound cmdName in
  if String.eqb stderrFile "" then fprintln Stderr message sh
  else match openFile w stderrFile appendMode sh with
       | inr err => fprintln Stderr (stderrOpenError +:+ err) sh
       | inl sh1 => fprintlnFile stderrFile message sh1
       end.

(** [cmd.Run()] is the event [Spawn], as in [executeCommand]. *)
Definition executeExternalWithRedirection (w : world) (fields : list string)
    (stdoutFile stderrFile : string) (stdoutAppend stderrAppend : bool)
    (sh : shell) : shell :=
  if String.eqb stdoutFile "" && String.eqb stderrFile ""
  then executeCommand w fields sh
  else
    match fields with
    | [] => sh
    | name :: args =>
        match lookPath w name with
        | None => outputError w name stderrFile stderrAppend sh
        | Some path =>
            match wire w Stdout stdoutOpenError stdoutFile stdoutAppend sh with
            | inr sh1 => sh1
            | inl (out, sh1) =>
                match wire w Stderr stderrOpenError stderrFile stderrAppend sh1 with
                | inr sh2 => sh2
                | inl (err, sh2) => record (Spawn path args out err) sh2
                end
            end
        end
    end.

(** One turn of the loop of [main], from the token sequence on: the two
    [continue]s on an empty sequence, then the routing. *)
Definition dispatch (w : world) (tokens : list string) (sh : shell) : shell :=
  match tokens with
  | [] => sh
  | _ =>
      let '(ex, sh1) := processRedirectionOperators tokens sh in
      match fields ex with
      | [] => sh1
      | name :: _ =>
          match builtins !! name with
          | Some h =>
              executeBuiltinWithRedirection w h (fields ex)
                (stdoutFile ex) (stderrFile ex)
                (stdoutAppend ex) (stderrAppend ex) sh1
          | None =>
              executeExternalWithRedirection w (fields ex)
                (stdoutFile ex) (stderrFile ex)
                (stdoutAppend ex) (stderrAppend ex) sh1
          end
      end
  end.

(** A line with a redirection operator as its last token is rejected: the
    property as the specification words it. *)
Definition lastOperatorRejected : Prop :=
  forall (w : world) (sh : shell) (tokens : list string) (op : string),
    last tokens = Some op -> isOperator op = true ->
    dispatch w tokens sh = fprintln Stderr syntaxError sh.

(** A world in which nothing resolves and every file opens. *)
Definition bareWorld : world :=
  World (fun _ => None) (fun _ => None) (fun _ _ => false) ""
        (fun _ => None).

Definition freshShell : shell := Shell ∅ [].

(** A world in which one path, in a directory that does not exist, cannot
    be opened. *)
Definition missingDir : string := "/no/such/dir/err.log".
Definition missingDirError : string :=
  "open /no/such/dir/err.log: no such file or directory".

Definition strictWorld : world :=
  World (fun _ => None)
        (fun path => if String.eqb path missingDir
                     then Some missingDirError else None)
        (fun _ _ => false) "" (fun _ => None).

(** A builtin with both targets set, the second one in the missing
    directory, while the first one already has content. *)
Definition oneFailingTarget : list string :=
  ["echo"; "hi"; ">"; "out.txt"; "2>"; missingDir].
Definition oldOutput : shell := Shell {["out.txt" := "old"]} [].

(** The names the [type] builtin reports as shell builtins. *)
Definition typeSaysBuiltin (cmd : string) : bool :=
  default false (typeBuiltins !! cmd).

(** The event is the call of a handler or the run of a process. *)
Definition isCall (e : event) : bool :=
  match e with
  | Invoke _ _ _ _ | Spawn _ _ _ _ => true
  | Write _ _ => false
  end.

(** The events a turn adds to the trace of [before]. *)
Definition addedBy (before after : shell) : list event :=
  drop (length (trace before)) (trace after).

(** [after] continues [before]: the trace is extended, no file is removed,
    and only the files [a] and [b] may have changed. *)
Definition continues (a b : string) (before after : shell) : Prop :=
  (exists added : list event, trace after = trace before ++ added)
  /\ dom (files before) ⊆ dom (files after)
  /\ forall path : string, path <> a -> path <> b ->
       files after !! path = files before !! path.

(** A world in which [false] resolves and its run ends in an error. *)
Definition failingWorld : world :=
  World (fun name => if String.eqb name "false" then Some "/bin/false" else None)
        (fun _ => None) (fun _ _ => true) "" (fun _ => None).

(** The same, where the path in the missing directory cannot be opened. *)
Definition failingWorldStrict : world :=
  World (lookPath failingWorld) (openError strictWorld)
        (runError failingWorld) "" (fun _ => None).

(** A shell whose file [err.log] holds one line. *)
Definition loggedShell : shell := Shell {["err.log" := "old" +:+ NL]} [].

End Dispatch.

(** ** Completion engine: [autocomplete] and [longestCommonPrefix] *)

Module Completion.

(** The package-level slice [builtinCMDs]. *)
Definition builtinCMDs : list string :=
  [ "exit"; "echo"; "type"; "pwd"; "cd"; "clear"; "ls"; "cat"; "cp"; "mv";
    "rm"; "mkdir"; "rmdir" ].

(** [strings.HasPrefix(s, prefix)] *)
Definition hasPrefix (s prefix : string) : bool := String.prefix prefix s.

(** The condition both searches put on a name. *)
Definition completes (name prefix : string) : bool :=
  hasPrefix name prefix && negb (String.eqb name prefix).

(** The loop over the builtin names. *)
Definition builtinMatches (table : list string) (prefix : string)
  : list string :=
  fold_left
    (fun matches cmd =>
       if completes cmd prefix then matches ++ [cmd] else matches)
    table [].

(** [strings.Split(s, sep)] for a one-byte separator: one piece more than
    there are separators, so the empty string gives one empty piece. *)
Fixpoint splitOn (sep : ascii) (s piece : string) : list string :=
  match s with
  | "" => [piece]
  | String c s' =>
      if Ascii.eqb c sep then piece :: splitOn sep s' ""
      else splitOn sep s' (writeByte piece c)
  end.

Definition split (s : string) (sep : ascii) : list string := splitOn sep s "".

(** The state of the search over the directories: the map [found], the
    slice [matches], and the directories read so far. *)
Record pathScan := PathScan {
  found : gmap string bool;
  matches : list string;
  reads : list string
}.

(** The body of the inner loop, for one directory entry. *)
Definition visit (prefix : string) (acc : pathScan) (file : dirEntry)
  : pathScan :=
  if IsDir file then acc
  else
    let name := Name file in
    if completes name prefix then
      if negb (default false (found acc !! name))
      then PathScan (<[name := true]> (found acc)) (matches acc ++ [name])
                    (reads acc)
      else acc
    else acc.

(** The body of the outer loop, for one directory. *)
Definition visitDir (w : world) (prefix : string) (acc : pathScan)
    (dir : string) : pathScan :=
  let acc1 := PathScan (found acc) (matches acc) (reads acc ++ [dir]) in
  match readDir w dir with
  | None => acc1
  | Some entries => fold_left (visit prefix) entries acc1
  end.

Definition searchDirs (w : world) : list string :=
  "." :: split (pathEnv w) ":"%char.

(** Candidate gathering: the builtin loop, then the directories when it
    found nothing. The second component lists the directories read. *)
Definition gather (table : list string) (w : world) (prefix : string)
  : list string * list string :=
  let matches0 := builtinMatches table prefix in
  if Nat.eqb (length matches0) 0 then
    let r := fold_left (visitDir w prefix) (searchDirs w)
                       (PathScan ∅ matches0 []) in
    (matches r, reads r)
  else (matches0, []).

(** [sort.Strings]: ascending in the byte-wise order of Go strings. *)
Fixpoint insertSorted (x : string) (l : list string) : list string :=
  match l with
  | [] => [x]
  | y :: l' => if String.leb x y then x :: l else y :: insertSorted x l'
  end.

Definition sortStrings (l : list string) : list string :=
  fold_right insertSorted [] l.

(** [s[:len(s)-1]] *)
Fixpoint dropLast (s : string) : string :=
  match s with
  | "" => ""
  | String c "" => ""
  | String c s' => String c (dropLast s')
  end.

(** [s[n:]] *)
Fixpoint dropBytes (n : nat) (s : string) : string :=
  match n, s with
  | O, _ => s
  | S k, String _ s' => dropBytes k s'
  | S _, "" => ""
  end.

(** [strings.TrimPrefix(s, prefix)] *)
Definition trimPrefix (s prefix : string) : string :=
  if hasPrefix s prefix then dropBytes (String.length prefix) s else s.

(** The inner [for !strings.HasPrefix(s, prefix)] loop; each turn cuts one
    byte, so [String.length prefix] turns are enough. *)
Fixpoint shrink (turns : nat) (s prefix : string) : string :=
  if hasPrefix s prefix then prefix
  else match turns with
       | O => ""
       | S k => if String.eqb prefix "" then "" else shrink k s (dropLast prefix)
       end.

Definition longestCommonPrefix (strs : list string) : string :=
  match strs with
  | [] => ""
  | first :: others =>
      fold_left (fun prefix s => shrink (String.length prefix) s prefix)
                others first
  end.

(** [autocomplete], over a builtin table [table]. The press counter starts
    at zero and grows by one per key press, far below the range of [int]. *)
Definition autocompleteIn (table : list string) (w : world)
    (prefix : string) (tabCount : nat) : string * list string :=
  if String.eqb prefix "" then ("", [])
  else
    let found := fst (gather table w prefix) in
    if Nat.eqb (length found) 0 then ("", [])
    else
      let sorted := sortStrings found in
      match sorted with
      | [only] => (trimPrefix only prefix, sorted)
      | _ =>
          let lcp := longestCommonPrefix sorted in
          if Nat.ltb (String.length prefix) (String.length lcp)
          then (dropBytes (String.length prefix) lcp, sorted)
          else if Nat.ltb 1 tabCount then ("", sorted)
          else ("", [])
      end.

Definition autocomplete : world -> string -> nat -> string * list string :=
  autocompleteIn builtinCMDs.

(** Candidate gathering as the specification words it: the path search
    collects every entry that is not a directory and starts with the prefix,
    once per name. *)
Definition visitAsWorded (prefix : string) (acc : list string)
    (file : dirEntry) : list string :=
  if negb (IsDir file) && hasPrefix (Name file) prefix
     && negb (bool_decide (Name file ∈ acc))
  then acc ++ [Name file] else acc.

Definition gatherAsWorded (table : list string) (w : world) (prefix : string)
  : list string :=
  match builtinMatches table prefix with
  | [] =>
      fold_left
        (fun acc dir =>
           match readDir w dir with
           | None => acc
           | Some entries => fold_left (visitAsWorded prefix) entries acc
           end)
        (searchDirs w) []
  | found => found
  end.

(** The map [found] holds exactly the names in [matches], each once. *)
Definition coherent (acc : pathScan) : Prop :=
  NoDup (matches acc)
  /\ forall name : string,
       default false (found acc !! name) = true <-> name ∈ matches acc.

(** [file] is an entry the path search collects as [name]. *)
Definition collects (prefix name : string) (file : dirEntry) : Prop :=
  IsDir file = false /\ Name file = name
  /\ hasPrefix name prefix = true /\ name <> prefix.

(** Some readable directory of the search list has such an entry. *)
Definition offered (w : world) (prefix name : string) : Prop :=
  exists (dir : string) (entries : list dirEntry) (file : dirEntry),
    dir ∈ searchDirs w /\ readDir w dir = Some entries
    /\ file ∈ entries /\ collects prefix name file.

(** The gathering of the code and the gathering as worded agree. *)
Definition gatherAsWordedAgrees : Prop :=
  forall (table : list string) (w : world) (prefix : string),
    prefix <> "" ->
    fst (gather table w prefix) = gatherAsWorded table w prefix.

(** A world whose search path is one directory holding [ls] and [lsblk]. *)
Definition binWorld : world :=
  World (fun _ => None) (fun _ => None) (fun _ _ => false) "/bin"
        (fun dir => if String.eqb dir "/bin"
                    then Some [DirEntry "ls" false; DirEntry "lsblk" false]
                    else None).

(** The vector for the prefix [ex] as the specification words it: nothing on
    the first press, both names on the second. *)
Definition exVectorAsWorded : Prop :=
  autocompleteIn ["echo"; "exit"] Dispatch.bareWorld "ex" 1 = ("", [])
  /\ autocompleteIn ["echo"; "exit"] Dispatch.bareWorld "ex" 2
     = ("", ["echo"; "exit"]).

(** The table of the completion vectors, in either order. *)
Definition twoBuiltins (swapped : bool) : list string :=
  if swapped then ["exit"; "echo"] else ["echo"; "exit"].

(** In ascending byte-wise order. *)
Definition ascending (l : list string) : Prop :=
  Sorted (fun a b => String.leb a b = true) l.

End Completion.

(** ** Raw-mode line reader: the loop of [readInputWithAutocomplete] *)

Module Reader.
Import Completion.

(** The local [input] and the two package-level variables. *)
Record reader := Reader {
  input : string;
  lastTabPrefix : string;
  tabPressCount : nat
}.

(** How one turn of the loop ends: it goes on reading, it returns the line,
    or the process exits. *)
Inductive outcome :=
| Reading
| Submitted (line : string)
| Exited.

Definition ESC : ascii := chr 27.
Definition BEL : string := String (chr 7) "".
Definition CRLF : string := String CR (String LF "").

(** The prompt text: colour on, the name, colour off, an arrow (three bytes
    in UTF-8) and a space. *)
Definition promptText : string :=
  String ESC "[1;32mShX" +:+ String ESC "[0m "
  +:+ String (chr 226) (String (chr 158) (String (chr 156) " ")).

Definition printPromptWithInput (line : string) : event :=
  Write Stdout (String CR (String ESC "[K") +:+ promptText +:+ line).

Fixpoint join (l : list string) (sep : string) : string :=
  match l with
  | [] => ""
  | [x] => x
  | x :: l' => x +:+ sep +:+ join l' sep
  end.

Definition printAllMatches (candidates : list string) : list event :=
  [Write Stdout CRLF; Write Stdout (join candidates "  "); Write Stdout CRLF].

(** [strings.Contains(s, " ")] *)
Fixpoint containsSpace (s : string) : bool :=
  match s with
  | "" => false
  | String c s' => Ascii.eqb c SPACE || containsSpace s'
  end.

Definition byte (n : N) : ascii := ascii_of_N n.

(** [string(rn)]: the UTF-8 encoding of a code point; a surrogate or a value
    above U+10FFFF encodes as U+FFFD. *)
Definition runeString (rn : N) : string :=
  if (rn <? 128)%N then String (byte rn) ""
  else if (rn <? 2048)%N then
    String (byte (192 + N.shiftr rn 6))
      (String (byte (128 + N.land rn 63)) "")
  else if ((55296 <=? rn) && (rn <=? 57343) || (1114111 <? rn))%N then
    String (chr 239) (String (chr 191) (String (chr 189) ""))
  else if (rn <? 65536)%N then
    String (byte (224 + N.shiftr rn 12))
      (String (byte (128 + N.land (N.shiftr rn 6) 63))
         (String (byte (128 + N.land rn 63)) ""))
  else
    String (byte (240 + N.shiftr rn 18))
      (String (byte (128 + N.land (N.shiftr rn 12) 63))
         (String (byte (128 + N.land (N.shiftr rn 6) 63))
            (String (byte (128 + N.land rn 63)) ""))).

(** The [case '\t'] of the switch. *)
Definition pressTab (table : list string) (w : world) (st : reader)
  : reader * list event :=
  let prefix := input st in
  if containsSpace prefix then (Reader (input st) "" 0, [])
  else
    let st1 :=
      if negb (String.eqb prefix (lastTabPrefix st))
      then Reader (input st) prefix 0 else st in
    let count := S (tabPressCount st1) in
    let '(result, candidates) := autocompleteIn table w prefix count in
    if Nat.ltb 1 (length candidates) && Nat.ltb 1 count
       && String.eqb result ""
    then (Reader (input st) (lastTabPrefix st1) count,
          printAllMatches candidates ++ [printPromptWithInput (input st)])
    else if negb (String.eqb result "") then
      let line :=
        (input st +:+ result)
        +:+ (if Nat.eqb (length candidates) 1 then " " else "") in
      (Reader line "" 0, [printPromptWithInput line])
    else (Reader (input st) (lastTabPrefix st1) count, [Write Stdout BEL]).

(** One turn of the loop: the [switch] over the rune read. *)
Definition handleRune (table : list string) (w : world) (st : reader)
    (rn : N) : reader * list event * outcome :=
  if (rn =? 3)%N then (st, [], Exited)
  else if ((rn =? 13) || (rn =? 10))%N then
    (Reader (input st) "" 0, [Write Stdout CRLF], Submitted (input st))
  else if (rn =? 127)%N then
    let line := dropLast (input st) in
    (Reader line "" 0, [printPromptWithInput line], Reading)
  else if (rn =? 9)%N then
    let '(st1, out) := pressTab table w st in (st1, out, Reading)
  else
    let line := input st +:+ runeString rn in
    (Reader line "" 0, [printPromptWithInput line], Reading).

(** The keys [keys] typed one after the other, while the loop goes on. *)
Fixpoint typeKeys (table : list string) (w : world) (st : reader)
    (keys : list N) : reader * list event * outcome :=
  match keys with
  | [] => (st, [], Reading)
  | rn :: keys' =>
      let '(st1, out, o) := handleRune table w st rn in
      match o with
      | Reading =>
          let '(st2, out2, o2) := typeKeys table w st1 keys' in
          (st2, out ++ out2, o2)
      | _ => (st1, out, o)
      end
  end.

Definition idle : reader := Reader "" "" 0.

(** A key the reader appends as one byte: an ASCII code that is none of
    interrupt, Tab, line feed, carriage return and delete. *)
Definition ordinaryKey (rn : N) : bool :=
  ((rn <? 128) && negb ((rn =? 3) || (rn =? 9) || (rn =? 10) || (rn =? 13)
                        || (rn =? 127)))%N.

(** The bytes of a sequence of such keys. *)
Fixpoint keyBytes (keys : list N) : string :=
  match keys with
  | [] => ""
  | rn :: keys' => String (byte rn) (keyBytes keys')
  end.

(** The reader state and the outcome after some keys. *)
Definition readerAfter (r : reader * list event * outcome) : reader :=
  fst (fst r).
Definition outcomeOf (r : reader * list event * outcome) : outcome := snd r.

End Reader.

(** * Part II: properties *)

(** ** Strings as byte sequences *)

Section StringFacts.

Lemma str_app_cons (x : ascii) (a b : string) :
  String x a +:+ b = String x (a +:+ b).
Proof. reflexivity. Qed.

Lemma str_app_nil_l (a : string) : "" +:+ a = a.
Proof. reflexivity. Qed.

Lemma str_app_assoc (a b c : string) : (a +:+ b) +:+ c = a +:+ (b +:+ c).
Proof.
  induction a as [|x a IH]; [reflexivity|].
  rewrite !str_app_cons. now f_equal.
Qed.

Lemma str_app_nil_r (a : string) : a +:+ "" = a.
Proof.
  induction a as [|x a IH]; [reflexivity|].
  rewrite str_app_cons. now f_equal.
Qed.

Lemma str_length_app (a b : string) :
  String.length (a +:+ b) = String.length a + String.length b.
Proof.
  induction a as [|x a IH]; [reflexivity|].
  rewrite str_app_cons. cbn [String.length plus]. now f_equal.
Qed.

Lemma str_app_eq_nil (a b : string) : a +:+ b = "" -> a = "" /\ b = "".
Proof. destruct a; simpl; [auto | discriminate]. Qed.

End StringFacts.

(** ** Facts about the scanner *)

Section TokenizerFacts.
Import Tokenizer.

Lemma scan_app (a b : string) (st : state) :
  scan st (a ++ b) = scan (scan st a) b.
Proof.
  revert st. induction a as [|c a IH]; intros st; simpl; [reflexivity|].
  apply IH.
Qed.

Lemma writeByte_nonempty (s : string) (c : ascii) : writeByte s c <> "".
Proof. destruct s; discriminate. Qed.

Lemma flush_prepend r0 st : flush (prepend r0 st) = prepend r0 (flush st).
Proof.
  destruct st as [r cur sq dq es]. unfold flush, prepend; simpl.
  destruct cur; simpl; [reflexivity|].
  now rewrite <- app_assoc.
Qed.

Lemma step_prepend r0 st c : step (prepend r0 st) c = prepend r0 (step st c).
Proof.
  unfold step.
  change (escaped (prepend r0 st)) with (escaped st).
  change (inSingleQuote (prepend r0 st)) with (inSingleQuote st).
  change (inDoubleQuote (prepend r0 st)) with (inDoubleQuote st).
  repeat match goal with
         | |- context [if ?b then _ else _] => destruct b
         end;
    try reflexivity; apply flush_prepend.
Qed.

Lemma scan_prepend r0 s : forall st,
  scan (prepend r0 st) s = prepend r0 (scan st s).
Proof.
  induction s as [|c s IH]; intros st; simpl; [reflexivity|].
  now rewrite step_prepend, IH.
Qed.

Lemma flush_idem st : flush (flush st) = flush st.
Proof. unfold flush. destruct (current st) eqn:E; simpl; now rewrite ?E. Qed.

Lemma flush_unquoted st : unquoted st -> unquoted (flush st).
Proof. unfold unquoted, flush. destruct (current st); simpl; tauto. Qed.

Lemma step_space_unquoted st : unquoted st -> step st SPACE = flush st.
Proof.
  intros (Hs & Hd & He). unfold step. now rewrite He, Hs, Hd.
Qed.

(** A run of unquoted spaces does what its first space does. *)
Lemma scan_spaces st n rest :
  unquoted st ->
  scan st (spaces (S n) ++ rest) = scan (flush st) rest.
Proof.
  intros Hu. revert st Hu. induction n as [|n IH]; intros st Hu.
  - simpl. now rewrite step_space_unquoted.
  - change (spaces (S (S n)) +:+ rest)
      with (String SPACE (spaces (S n) +:+ rest)).
    cbn [scan]. rewrite step_space_unquoted by assumption.
    rewrite IH by now apply flush_unquoted.
    now rewrite flush_idem.
Qed.

Lemma flush_as_prepend st :
  unquoted st -> flush st = prepend (result (flush st)) init.
Proof.
  intros (Hs & Hd & He). unfold flush, prepend.
  destruct st as [r cur sq dq es]; simpl in *; subst.
  destruct cur; simpl; now rewrite app_nil_r.
Qed.

Lemma parse_after_space pre post :
  unquotedAfter pre ->
  parseCommand (pre ++ String SPACE post) = parseCommand pre ++ parseCommand post.
Proof.
  intros Hu. unfold parseCommand.
  rewrite scan_app. cbn [scan].
  rewrite step_space_unquoted by exact Hu.
  set (st := scan init pre) in *.
  replace (scan (flush st) post)
    with (scan (prepend (result (flush st)) init) post)
    by (now rewrite <- flush_as_prepend).
  now rewrite scan_prepend, flush_prepend.
Qed.

Lemma flush_noEmpty st : noEmpty st -> noEmpty (flush st).
Proof.
  unfold noEmpty, flush. intros H.
  destruct (current st) eqn:E; [exact H|]. simpl.
  rewrite in_app_iff. intros [Hin | [Heq | []]]; [now apply H | discriminate].
Qed.

Lemma step_noEmpty st c : noEmpty st -> noEmpty (step st c).
Proof.
  intros H. unfold step.
  repeat match goal with
         | |- context [if ?b then _ else _] => destruct b
         end;
    try exact H; now apply flush_noEmpty.
Qed.

Lemma scan_noEmpty s : forall st, noEmpty st -> noEmpty (scan st s).
Proof.
  induction s as [|c s IH]; intros st H; simpl; [exact H|].
  apply IH, step_noEmpty, H.
Qed.

Lemma parseCommand_noEmpty line : ~ In "" (parseCommand line).
Proof.
  apply flush_noEmpty, scan_noEmpty. unfold noEmpty; simpl; tauto.
Qed.

Lemma plainByte_spec (c : ascii) :
  plainByte c = true ->
  Ascii.eqb c BACKSLASH = false /\ Ascii.eqb c SQUOTE = false
  /\ Ascii.eqb c DQUOTE = false /\ Ascii.eqb c SPACE = false.
Proof.
  unfold plainByte. rewrite negb_true_iff, !orb_false_iff. tauto.
Qed.

Lemma scan_plain (w : string) : forall st : state,
  unquoted st -> allBytes plainByte w = true ->
  scan st w = State (result st) (current st +:+ w) false false false.
Proof.
  induction w as [|c w IH]; intros st (Hs & Hd & He) Hw.
  - simpl. rewrite str_app_nil_r. destruct st; simpl in *; now subst.
  - simpl in Hw. apply andb_prop in Hw as [Hc Hw].
    destruct (plainByte_spec c Hc) as (Hb & Hq & Hdq & Hsp).
    cbn [scan]. assert (E : step st c = write c st).
    { unfold step. now rewrite He, Hb, Hq, Hdq, Hsp. }
    rewrite E, IH; [|repeat split; assumption | assumption].
    cbn [write result current]. unfold writeByte.
    now rewrite str_app_assoc.
Qed.

Lemma plainWord_spec (w : string) :
  plainWord w = true -> w <> "" /\ allBytes plainByte w = true.
Proof.
  unfold plainWord. rewrite andb_true_iff, negb_true_iff, String.eqb_neq. tauto.
Qed.

Lemma unquoted_init : unquoted init.
Proof. repeat split. Qed.

Lemma parse_plain_word (w : string) :
  plainWord w = true -> unquotedAfter w /\ parseCommand w = [w].
Proof.
  intros [Hne Hw]%plainWord_spec. unfold unquotedAfter, parseCommand.
  rewrite (scan_plain w init unquoted_init Hw). cbn [result current init].
  split; [repeat split|]. unfold flush. cbn.
  destruct w; [contradiction | reflexivity].
Qed.

(** White space other than the space character is one of five bytes, each
    of them a plain byte. *)
Lemma whitespace_cases (c : ascii) :
  isWhitespace c = true -> c <> SPACE ->
  c = TAB \/ c = LF \/ c = VT \/ c = FF \/ c = CR.
Proof.
  unfold isWhitespace. intros H Hne.
  destruct (Ascii.eqb_spec c SPACE); [contradiction|].
  destruct (Ascii.eqb_spec c TAB); [tauto|].
  destruct (Ascii.eqb_spec c LF); [tauto|].
  destruct (Ascii.eqb_spec c VT); [tauto|].
  destruct (Ascii.eqb_spec c FF); [tauto|].
  destruct (Ascii.eqb_spec c CR); [tauto|].
  discriminate H.
Qed.

Lemma whitespace_plain (c : ascii) :
  isWhitespace c = true -> c <> SPACE -> plainByte c = true.
Proof.
  intros H Hne.
  destruct (whitespace_cases c H Hne) as [->|[->|[->|[->| ->]]]]; reflexivity.
Qed.

Lemma allBytes_app (p : ascii -> bool) (a b : string) :
  allBytes p (a +:+ b) = allBytes p a && allBytes p b.
Proof.
  induction a as [|x a IH]; [reflexivity|].
  rewrite str_app_cons. cbn [allBytes]. now rewrite IH, andb_assoc.
Qed.

(** C5 (amended): after any text that leaves the scanner outside quotes and
    escapes, an unquoted space character separates tokens (the tokens of the
    line are those of the text before it followed by those of the text after
    it), a run of such spaces acts as a single space, and no line ever gives
    the empty string as a token. Only the space character separates: any
    other white-space byte (tab, line feed, vertical tab, form feed,
    carriage return) with no escape pending is written to the token being
    built like any ordinary byte, so two words of plain bytes with such a
    byte between them are one token. *)
Theorem unquoted_spaces_separate (pre post : string) (n : nat) :
  unquotedAfter pre ->
  parseCommand (pre +:+ String SPACE post)
    = parseCommand pre ++ parseCommand post
  /\ parseCommand (pre +:+ spaces (S n) +:+ post)
    = parseCommand (pre +:+ String SPACE post)
  /\ (forall line : string, ~ In "" (parseCommand line))
  /\ (forall (c : ascii) (st : state),
        isWhitespace c = true -> c <> SPACE -> escaped st = false ->
        step st c = write c st)
  /\ (forall (c : ascii) (u v : string),
        isWhitespace c = true -> c <> SPACE ->
        allBytes plainByte u = true -> allBytes plainByte v = true ->
        parseCommand (u +:+ String c v) = [u +:+ String c v]).
Proof.
  intros Hu. split; [now apply parse_after_space | split; [|split; [|split]]].
  - unfold parseCommand.
    rewrite (scan_app pre (spaces (S n) +:+ post)).
    rewrite (scan_app pre (String SPACE post)).
    rewrite scan_spaces by exact Hu.
    cbn [scan]. now rewrite step_space_unquoted by exact Hu.
  - apply parseCommand_noEmpty.
  - intros c st Hw Hne He. unfold step. rewrite He.
    destruct (whitespace_cases c Hw Hne) as [->|[->|[->|[->| ->]]]];
      reflexivity.
  - intros c u v Hw Hne Hpu Hpv.
    apply parse_plain_word. unfold plainWord.
    rewrite allBytes_app. cbn [allBytes].
    rewrite Hpu, Hpv, (whitespace_plain c Hw Hne). cbn [andb].
    rewrite andb_true_r. apply negb_true_iff, String.eqb_neq. intros E.
    apply str_app_eq_nil in E as [_ E]. discriminate E.
Qed.

Lemma unquoted_spaces_separate_witness :
  unquotedAfter "ls 'my dir'"
  /\ parseCommand ("ls 'my dir'" +:+ String SPACE "-l")
       = parseCommand "ls 'my dir'" ++ parseCommand "-l"
  /\ parseCommand ("ls 'my dir'" +:+ spaces 3 +:+ "-l")
       = parseCommand ("ls 'my dir'" +:+ String SPACE "-l")
  /\ (forall line : string, ~ In "" (parseCommand line))
  /\ (forall (c : ascii) (st : state),
        isWhitespace c = true -> c <> SPACE -> escaped st = false ->
        step st c = write c st)
  /\ (forall (c : ascii) (u v : string),
        isWhitespace c = true -> c <> SPACE ->
        allBytes plainByte u = true -> allBytes plainByte v = true ->
        parseCommand (u +:+ String c v) = [u +:+ String c v]).
Proof.
  split.
  - repeat split; reflexivity.
  - apply (unquoted_spaces_separate "ls 'my dir'" "-l" 2).
    repeat split; reflexivity.
Defined.

(** C5 (as worded) fails: a form feed (the key Ctrl-L, which the reader
    appends to the line), and likewise a tab, between two words does not
    separate them; the line is one token. *)
Lemma form_feed_does_not_separate : ~ whitespaceSeparates.
Proof.
  intros H.
  specialize (H FF "a" "b" eq_refl (conj eq_refl (conj eq_refl eq_refl))).
  vm_compute in H. discriminate H.
Qed.

Example form_feed_is_kept :
  parseCommand ("a" +:+ String FF "b") = ["a" +:+ String FF "b"]
  /\ parseCommand ("a" +:+ String TAB "b") = ["a" +:+ String TAB "b"].
Proof. split; reflexivity. Qed.

(** C9: the three quoting vectors, and the double-quote escape rule: inside
    double quotes a backslash before dollar, backtick, double quote,
    backslash or newline gives that character alone, and before any other
    character gives the backslash followed by the character. *)
Theorem quoting_vectors :
  parseCommand "a 'b c' d" = ["a"; "b c"; "d"]
  /\ parseCommand
       ("a " +:+ String DQUOTE ("b\" +:+ String DQUOTE ("c" +:+ String DQUOTE " d")))
     = ["a"; "b" +:+ String DQUOTE "c"; "d"]
  /\ parseCommand "a\ b" = ["a b"]
  /\ forall c : ascii,
       parseCommand
         (String DQUOTE (String BACKSLASH (String c (String DQUOTE ""))))
       = [ if existsb (Ascii.eqb c) [DOLLAR; BACKTICK; DQUOTE; BACKSLASH; LF]
           then String c ""
           else String BACKSLASH (String c "") ].
Proof.
  repeat split; try reflexivity.
  intros c. destruct c as [[] [] [] [] [] [] [] []]; reflexivity.
Qed.

End TokenizerFacts.

(** ** Facts about the redirection extractor *)

Section RedirectFacts.
Import Redirect.

Lemma fields_assign op target ex : fields (assign op target ex) = fields ex.
Proof. now destruct op. Qed.

(** The loop takes one or two tokens per turn: induction on a bound of the
    number of tokens left. *)
Lemma loop_ind2 (P : list string -> Prop) :
  P [] ->
  (forall token, P [token]) ->
  (forall token rest, P rest -> (forall target rest2, rest = target :: rest2 -> P rest2) ->
                      P (token :: rest)) ->
  forall l, P l.
Proof.
  intros Hnil Hone Hstep l.
  assert (H : forall n l, length l <= n -> P l).
  { induction n as [|n IH]; intros [|a l'] Hlen; simpl in Hlen; try exact Hnil.
    - lia.
    - apply Hstep.
      + apply IH. lia.
      + intros target rest2 ->. apply IH. simpl in Hlen. lia. }
  now apply (H (length l)).
Qed.

Lemma loop_perm : forall rest ex ex',
  loop ex rest = Some ex' ->
  Permutation (fields ex' ++ consumed rest) (fields ex ++ rest).
Proof.
  intros rest. induction rest as [| token | token rest IH1 IH2] using loop_ind2;
    intros ex ex' H.
  - simpl in H. injection H as <-. reflexivity.
  - simpl in *. destruct (operatorOf token); [discriminate|].
    injection H as <-. simpl. now rewrite app_nil_r.
  - simpl in *. destruct (operatorOf token) as [op|].
    + destruct rest as [|target rest2]; [discriminate|].
      specialize (IH2 target rest2 eq_refl _ _ H).
      rewrite fields_assign in IH2.
      rewrite <- !Permutation_middle. now do 2 constructor.
    + specialize (IH1 _ _ H). simpl in IH1.
      now rewrite <- app_assoc in IH1.
Qed.

Lemma loop_app : forall pre ex ex1 post,
  loop ex pre = Some ex1 -> loop ex (pre ++ post) = loop ex1 post.
Proof.
  intros pre. induction pre as [| token | token rest IH1 IH2] using loop_ind2;
    intros ex ex1 post H.
  - simpl in H. now injection H as <-.
  - simpl in *. destruct (operatorOf token); [discriminate|].
    now injection H as <-.
  - simpl in *. destruct (operatorOf token) as [op|].
    + destruct rest as [|target rest2]; [discriminate|].
      simpl. now apply (IH2 target rest2 eq_refl).
    + now apply IH1.
Qed.

(** Tokens none of which is an operator pass through unchanged. *)
Lemma loop_plain : forall args ex,
  forallb (fun token => negb (isOperator token)) args = true ->
  loop ex args
  = Some (Extraction (fields ex ++ args) (stdoutFile ex) (stderrFile ex)
                     (stdoutAppend ex) (stderrAppend ex)).
Proof.
  induction args as [|token args IH]; intros ex H; simpl.
  - rewrite app_nil_r. now destruct ex.
  - simpl in H. apply andb_prop in H as [Ht Hargs].
    unfold isOperator in Ht. destruct (operatorOf token); [discriminate|].
    rewrite (IH _ Hargs). simpl. now rewrite <- app_assoc.
Qed.

(** No case of the switch clears an append flag once it is set. *)
Lemma loop_append_kept : forall rest ex ex',
  loop ex rest = Some ex' ->
  (stdoutAppend ex = true -> stdoutAppend ex' = true)
  /\ (stderrAppend ex = true -> stderrAppend ex' = true).
Proof.
  intros rest. induction rest as [| token | token rest IH1 IH2] using loop_ind2;
    intros ex ex' H.
  - simpl in H. injection H as <-. tauto.
  - simpl in *. destruct (operatorOf token); [discriminate|].
    injection H as <-. tauto.
  - simpl in *. destruct (operatorOf token) as [op|].
    + destruct rest as [|target rest2]; [discriminate|].
      destruct (IH2 target rest2 eq_refl _ _ H) as [Ho He].
      destruct op; simpl in *; split; intros E; auto.
    + destruct (IH1 _ _ H) as [Ho He]. simpl in *. tauto.
Qed.

(** Every target the loop records is one of the consumed tokens. *)
Lemma loop_targets_consumed : forall rest ex ex',
  loop ex rest = Some ex' ->
  (stdoutFile ex' = stdoutFile ex \/ In (stdoutFile ex') (consumed rest))
  /\ (stderrFile ex' = stderrFile ex \/ In (stderrFile ex') (consumed rest)).
Proof.
  intros rest. induction rest as [| token | token rest IH1 IH2] using loop_ind2;
    intros ex ex' H.
  - simpl in H. injection H as <-. auto.
  - simpl in *. destruct (operatorOf token); [discriminate|].
    injection H as <-. auto.
  - simpl in *. destruct (operatorOf token) as [op|].
    + destruct rest as [|target rest2]; [discriminate|].
      destruct (IH2 target rest2 eq_refl _ _ H) as [Ho He].
      destruct op; simpl in *; split;
        repeat match goal with
               | H : _ \/ _ |- _ => destruct H as [-> | ?]
               end; auto.
    + destruct (IH1 _ _ H) as [Ho He]. simpl in *. tauto.
Qed.

(** The target of a stream is the one of its last operator: after the
    operator and its target, tokens that are no operators change nothing. *)
Lemma last_target_wins (pre post : list string) (op target : string)
    (o : operator) (ex : extraction) :
  extract pre = Some ex ->
  operatorOf op = Some o ->
  forallb (fun token => negb (isOperator token)) post = true ->
  exists ex' : extraction,
    extract (pre ++ op :: target :: post) = Some ex'
    /\ (if isOut o then stdoutFile ex' else stderrFile ex') = target.
Proof.
  intros Hpre Hop Hpost. unfold extract.
  rewrite (loop_app _ _ _ _ Hpre). cbn [loop]. rewrite Hop.
  rewrite (loop_plain _ _ Hpost). eexists. split; [reflexivity|].
  now destruct o.
Qed.

(** C1: the target of a stream is the one of its last operator, but the
    append flag is not: [>>] followed later by [>] leaves the append flag
    set, on standard output and on standard error alike. *)
Theorem truncate_after_append_stays_append :
  extract ["echo"; "hi"; ">>"; "a.txt"; ">"; "b.txt"]
    = Some (Extraction ["echo"; "hi"] "b.txt" "" true false)
  /\ extract ["cmd"; "2>>"; "a.log"; "2>"; "b.log"]
    = Some (Extraction ["cmd"] "" "b.log" false true).
Proof. split; reflexivity. Qed.

(** C6: when extraction succeeds, the remaining tokens together with the
    consumed operators and targets are a permutation of the token sequence. *)
Theorem extraction_keeps_tokens (tokens : list string) (ex : extraction) :
  extract tokens = Some ex ->
  Permutation (fields ex ++ consumed tokens) tokens.
Proof. intros H. exact (loop_perm _ _ _ H). Qed.

Lemma extraction_keeps_tokens_witness :
  extract ["ls"; ">"; "out.txt"; "-l"; "2>>"; "err.txt"]
    = Some (Extraction ["ls"; "-l"] "out.txt" "err.txt" false true)
  /\ Permutation
       (["ls"; "-l"] ++ consumed ["ls"; ">"; "out.txt"; "-l"; "2>>"; "err.txt"])
       ["ls"; ">"; "out.txt"; "-l"; "2>>"; "err.txt"].
Proof.
  split; [reflexivity|].
  exact (extraction_keeps_tokens
           ["ls"; ">"; "out.txt"; "-l"; "2>>"; "err.txt"]
           (Extraction ["ls"; "-l"] "out.txt" "err.txt" false true)
           eq_refl).
Defined.

End RedirectFacts.

(** ** Facts about the dispatcher *)

Section DispatchFacts.
Import Redirect Dispatch.

Lemma extract_plain (tokens : list string) :
  forallb (fun token => negb (isOperator token)) tokens = true ->
  extract tokens = Some (Extraction tokens "" "" false false).
Proof. intros H. unfold extract. now rewrite (loop_plain _ _ H). Qed.

Lemma extract_plain_then (tokens : list string) (op target : string) :
  forallb (fun token => negb (isOperator token)) tokens = true ->
  extract (tokens ++ [op; target])
  = loop (Extraction tokens "" "" false false) [op; target].
Proof.
  intros H. unfold extract.
  now rewrite (loop_app _ _ _ _ (extract_plain _ H)).
Qed.

(** The names the dispatcher routes to handlers are those the completion
    engine searches. *)
Lemma dispatcher_names_are_completion_names :
  dom builtins = list_to_set Completion.builtinCMDs.
Proof. unfold builtins. now rewrite dom_list_to_map_L. Qed.

(** C2: a command that is no builtin and does not resolve, typed with no
    redirection, is reported with [fmt.Println] on standard output and
    nothing is spawned; the same command with only standard output
    redirected is reported on the shell's error stream. *)
Theorem unknown_command_reported_on_stdout
    (w : world) (sh : shell) (name : string) (args : list string) :
  builtins !! name = None ->
  lookPath w name = None ->
  forallb (fun token => negb (isOperator token)) (name :: args) = true ->
  dispatch w (name :: args) sh
    = Shell (files sh)
            (trace sh ++ [Write Stdout ((name +:+ ": command not found") +:+ NL)])
  /\ dispatch w ((name :: args) ++ [">"; "out.txt"]) sh
    = Shell (files sh)
            (trace sh ++ [Write Stderr ((name +:+ ": command not found") +:+ NL)]).
Proof.
  intros Hb Hl Hp. split.
  - unfold dispatch, processRedirectionOperators.
    rewrite (extract_plain _ Hp). cbn [fields stdoutFile stderrFile].
    rewrite Hb. unfold executeExternalWithRedirection. cbn [String.eqb andb].
    unfold executeCommand. rewrite Hl. reflexivity.
  - unfold dispatch, processRedirectionOperators.
    rewrite (extract_plain_then _ _ _ Hp).
    change (loop (Extraction (name :: args) "" "" false false) [">"; "out.txt"])
      with (Some (Extraction (name :: args) "out.txt" "" false false)).
    cbn [fields stdoutFile stderrFile stdoutAppend stderrAppend].
    rewrite Hb. unfold executeExternalWithRedirection.
    change (String.eqb "out.txt" "") with false. cbn [andb].
    rewrite Hl. reflexivity.
Qed.

(** With a standard error target that opens, the report is added to that
    file and nothing reaches the shell's own streams. *)
Lemma unknown_command_reported_in_target
    (w : world) (sh : shell) (name errFile : string) (errAppend : bool) :
  lookPath w name = None ->
  errFile <> "" ->
  openError w errFile = None ->
  exists sh1 : shell,
    openFile w errFile errAppend sh = inl sh1
    /\ executeExternalWithRedirection w [name] "" errFile false errAppend sh
       = fprintlnFile errFile (notFound name) sh1.
Proof.
  intros Hl Hne Hopen. apply String.eqb_neq in Hne.
  unfold executeExternalWithRedirection, outputError, openFile.
  rewrite Hne, Hl, Hopen. cbn [String.eqb andb].
  eexists. split; reflexivity.
Qed.

Lemma unknown_command_reported_on_stdout_witness :
  dispatch bareWorld ["zzzNoSuchCmd"] freshShell
    = Shell ∅ [Write Stdout ("zzzNoSuchCmd: command not found" +:+ NL)]
  /\ dispatch bareWorld ["zzzNoSuchCmd"; ">"; "out.txt"] freshShell
    = Shell ∅ [Write Stderr ("zzzNoSuchCmd: command not found" +:+ NL)].
Proof.
  exact (unknown_command_reported_on_stdout
           bareWorld freshShell "zzzNoSuchCmd" [] eq_refl eq_refl eq_refl).
Defined.

(** C3: the name [ls] is routed to a builtin handler and is searched by
    completion, yet [type ls] does not report a shell builtin: it reports a
    path or {i not found}. The table of [typeHandler] holds five names. *)
Theorem type_misses_builtin_ls (w : world) :
  builtins !! "ls" = Some lsHandler
  /\ "ls" ∈ Completion.builtinCMDs
  /\ typeSaysBuiltin "ls" = false
  /\ runTypeHandler w ["type"; "ls"]
     = match lookPath w "ls" with
       | Some path => "ls is " +:+ path +:+ NL
       | None => "ls: not found" +:+ NL
       end
  /\ dom typeBuiltins = {["echo"; "exit"; "type"; "pwd"; "cd"]}
  /\ dom typeBuiltins ⊆ dom builtins.
Proof.
  split; [reflexivity|].
  split; [apply (bool_decide_unpack _); reflexivity|].
  split; [reflexivity|]. split; [reflexivity|]. split.
  - unfold typeBuiltins. rewrite dom_list_to_map_L. cbn.
    now rewrite (right_id_L ∅ (∪)), !(assoc_L (∪)).
  - apply (bool_decide_unpack _). vm_compute. reflexivity.
Qed.

(** C8 (amended): when the tokens before a final redirection operator are
    themselves extracted without rejection, so that the operator is not the
    target of the one before it, the line is rejected: the syntax error goes
    to the shell's error stream, no file is opened, no handler is invoked
    and nothing is spawned. *)
Theorem dangling_operator_rejected
    (w : world) (sh : shell) (pre : list string) (op : string) :
  isOperator op = true ->
  is_Some (extract pre) ->
  dispatch w (pre ++ [op]) sh
  = Shell (files sh) (trace sh ++ [Write Stderr (syntaxError +:+ NL)]).
Proof.
  intros Hop [ex Hex].
  assert (Hrej : extract (pre ++ [op]) = None).
  { unfold extract. rewrite (loop_app _ _ _ _ Hex). simpl.
    unfold isOperator in Hop. now destruct (operatorOf op). }
  unfold dispatch, processRedirectionOperators. rewrite Hrej.
  destruct pre; reflexivity.
Qed.

Lemma dangling_operator_rejected_witness :
  isOperator "2>" = true
  /\ is_Some (extract ["ls"; ">"; "out.txt"])
  /\ dispatch bareWorld (["ls"; ">"; "out.txt"] ++ ["2>"]) freshShell
     = Shell ∅ [Write Stderr (syntaxError +:+ NL)].
Proof.
  split; [reflexivity|]. split; [eexists; reflexivity|].
  apply (dangling_operator_rejected bareWorld freshShell
           ["ls"; ">"; "out.txt"] "2>");
    [reflexivity | eexists; reflexivity].
Defined.

(** C8 (as worded) fails: in [echo > >] the last token is an operator, but
    it is the target of the operator before it; the line runs [echo] with
    its output in a file of that name. *)
Lemma operator_as_target_runs : ~ lastOperatorRejected.
Proof.
  intros H.
  specialize (H bareWorld freshShell ["echo"; ">"; ">"] ">" eq_refl eq_refl).
  apply (f_equal trace) in H. vm_compute in H. discriminate H.
Qed.

Example operator_as_target_trace :
  trace (dispatch bareWorld ["echo"; ">"; ">"] freshShell)
  = [Invoke echoHandler ["echo"] (File ">") (Console Stderr)].
Proof. reflexivity. Qed.

(** C10: with both targets set, the first one opening and the second one
    failing to open, the handler is not invoked (the only event is the
    report of the open error on the shell's error stream), and the standard
    output target exists afterwards: empty in truncate mode, with its former
    content (or created empty) in append mode. No other file changes. *)
Theorem stdout_target_created_before_stderr_failure
    (w : world) (sh : shell) (h : handler) (args : list string)
    (outFile errFile : string) (outAppend errAppend : bool) (err : string) :
  outFile <> "" -> errFile <> "" ->
  openError w outFile = None -> openError w errFile = Some err ->
  let sh' := executeBuiltinWithRedirection w h args outFile errFile
                                           outAppend errAppend sh in
  trace sh' = trace sh ++ [Write Stderr (stderrOpenError +:+ err +:+ NL)]
  /\ files sh' !! outFile
     = Some (if outAppend then default "" (files sh !! outFile) else "")
  /\ forall path : string, path <> outFile ->
       files sh' !! path = files sh !! path.
Proof.
  intros Hout Herr Hopen Hfail sh'. subst sh'.
  unfold executeBuiltinWithRedirection, wire, openFile.
  apply String.eqb_neq in Hout, Herr.
  rewrite Hout, Hopen. cbn [files trace]. rewrite Herr, Hfail.
  cbn [fprintln record files trace].
  split; [reflexivity|].
  destruct outAppend.
  - destruct (files sh !! outFile) as [content|] eqn:E; simpl.
    + split; [now rewrite E | reflexivity].
    + split; [now rewrite lookup_insert_eq|].
      intros path Hne. now rewrite lookup_insert_ne.
  - split; [now rewrite lookup_insert_eq|].
    intros path Hne. now rewrite lookup_insert_ne.
Qed.

Lemma stdout_target_created_before_stderr_failure_witness :
  trace (dispatch strictWorld oneFailingTarget oldOutput)
  = [Write Stderr (stderrOpenError +:+ missingDirError +:+ NL)]
  /\ files (dispatch strictWorld oneFailingTarget oldOutput) !! "out.txt"
     = Some ""
  /\ forall path : string, path <> "out.txt" ->
       files (dispatch strictWorld oneFailingTarget oldOutput) !! path
       = files oldOutput !! path.
Proof.
  exact (stdout_target_created_before_stderr_failure
           strictWorld oldOutput echoHandler
           ["echo"; "hi"] "out.txt" missingDir false false missingDirError
           ltac:(discriminate) ltac:(discriminate) eq_refl eq_refl).
Defined.

End DispatchFacts.

(** ** Facts about the completion engine *)

Section CompletionFacts.
Import Completion.

Lemma completes_iff (name prefix : string) :
  completes name prefix = true
  <-> hasPrefix name prefix = true /\ name <> prefix.
Proof.
  unfold completes. rewrite andb_true_iff, negb_true_iff.
  now rewrite String.eqb_neq.
Qed.

Lemma builtinMatches_from (table : list string) (prefix : string) :
  forall acc : list string,
    fold_left
      (fun found cmd => if completes cmd prefix then found ++ [cmd] else found)
      table acc
    = acc ++ List.filter (fun cmd => completes cmd prefix) table.
Proof.
  induction table as [|cmd table IH]; intros acc; simpl.
  - now rewrite app_nil_r.
  - rewrite IH. destruct (completes cmd prefix); [|reflexivity].
    now rewrite <- app_assoc.
Qed.

Lemma builtinMatches_filter (table : list string) (prefix : string) :
  builtinMatches table prefix
  = List.filter (fun cmd => completes cmd prefix) table.
Proof. unfold builtinMatches. now rewrite builtinMatches_from. Qed.

Lemma visit_spec (prefix : string) (acc : pathScan) (file : dirEntry) :
  coherent acc ->
  coherent (visit prefix acc file)
  /\ reads (visit prefix acc file) = reads acc
  /\ forall name : string,
       name ∈ matches (visit prefix acc file)
       <-> name ∈ matches acc \/ collects prefix name file.
Proof.
  intros [Hnd Hfound]. unfold visit, collects.
  destruct (IsDir file) eqn:Hdir.
  { split; [now split|]. split; [reflexivity|].
    intros name. split; [now left|].
    intros [H | (H & _)]; [exact H | discriminate]. }
  destruct (completes (Name file) prefix) eqn:Hc.
  2:{ split; [now split|]. split; [reflexivity|].
      intros name. split; [now left|].
      intros [H | (_ & <- & Hp & Hne)]; [exact H|].
      assert (completes (Name file) prefix = true) by now apply completes_iff.
      congruence. }
  apply completes_iff in Hc as [Hp Hne].
  destruct (default false (found acc !! Name file)) eqn:Hin; cbn [negb].
  - apply Hfound in Hin.
    split; [now split|]. split; [reflexivity|].
    intros name. split; [now left|].
    intros [H | (_ & <- & _)]; assumption.
  - assert (Hnew : Name file ∉ matches acc).
    { intros H. apply Hfound in H. congruence. }
    unfold coherent. cbn [found matches reads].
    assert (Hmem : forall name : string,
               name ∈ matches acc ++ [Name file]
               <-> name ∈ matches acc \/ name = Name file).
    { intros name. now rewrite elem_of_app, list_elem_of_singleton. }
    split; [split|].
    + apply NoDup_app. split; [exact Hnd|]. split; [|apply NoDup_singleton].
      intros x Hx ->%list_elem_of_singleton. contradiction.
    + intros name. rewrite Hmem.
      destruct (decide (name = Name file)) as [->|Hd].
      * rewrite lookup_insert_eq. cbn. tauto.
      * rewrite lookup_insert_ne by congruence. rewrite Hfound. tauto.
    + split; [reflexivity|]. intros name. rewrite Hmem.
      split; (intros [H | H]; [now left | right]).
      * subst name. tauto.
      * symmetry. apply H.
Qed.

Lemma visit_all_spec (prefix : string) (entries : list dirEntry) :
  forall acc : pathScan,
    coherent acc ->
    coherent (fold_left (visit prefix) entries acc)
    /\ reads (fold_left (visit prefix) entries acc) = reads acc
    /\ forall name : string,
         name ∈ matches (fold_left (visit prefix) entries acc)
         <-> name ∈ matches acc
             \/ exists file, file ∈ entries /\ collects prefix name file.
Proof.
  induction entries as [|file entries IH]; intros acc Hc; simpl.
  - split; [exact Hc|]. split; [reflexivity|].
    intros name. split; [now left|].
    intros [H | (file & Hin & _)]; [exact H|].
    now apply not_elem_of_nil in Hin.
  - destruct (visit_spec prefix acc file Hc) as (Hc1 & Hr1 & Hm1).
    destruct (IH _ Hc1) as (Hc2 & Hr2 & Hm2).
    split; [exact Hc2|]. split; [congruence|].
    intros name. rewrite Hm2, Hm1. split.
    + intros [[H | H] | (f & Hin & H)]; auto.
      * right. exists file. split; [apply list_elem_of_here | exact H].
      * right. exists f. split; [now apply list_elem_of_further | exact H].
    + intros [H | (f & Hin & H)]; auto.
      apply elem_of_cons in Hin as [-> | Hin]; auto.
      right. now exists f.
Qed.

Lemma visitDir_spec (w : world) (prefix : string) (acc : pathScan)
    (dir : string) :
  coherent acc ->
  coherent (visitDir w prefix acc dir)
  /\ reads (visitDir w prefix acc dir) = reads acc ++ [dir]
  /\ forall name : string,
       name ∈ matches (visitDir w prefix acc dir)
       <-> name ∈ matches acc
           \/ exists entries file,
                readDir w dir = Some entries /\ file ∈ entries
                /\ collects prefix name file.
Proof.
  intros Hc. unfold visitDir.
  destruct (readDir w dir) as [entries|].
  - destruct (visit_all_spec prefix entries
                (PathScan (found acc) (matches acc) (reads acc ++ [dir])) Hc)
      as (Hc1 & Hr1 & Hm1).
    split; [exact Hc1|]. split; [exact Hr1|].
    intros name. rewrite Hm1. cbn [matches]. split.
    + intros [H | (file & Hin & H)]; auto.
      right. now exists entries, file.
    + intros [H | (entries' & file & [= <-] & Hin & H)]; auto.
      right. now exists file.
  - split; [exact Hc|]. split; [reflexivity|].
    intros name. cbn [matches]. split; auto.
    intros [H | (entries & file & Hread & _)]; [exact H | discriminate].
Qed.

Lemma visitDirs_spec (w : world) (prefix : string) (dirs : list string) :
  forall acc : pathScan,
    coherent acc ->
    coherent (fold_left (visitDir w prefix) dirs acc)
    /\ reads (fold_left (visitDir w prefix) dirs acc) = reads acc ++ dirs
    /\ forall name : string,
         name ∈ matches (fold_left (visitDir w prefix) dirs acc)
         <-> name ∈ matches acc
             \/ exists dir entries file,
                  dir ∈ dirs /\ readDir w dir = Some entries
                  /\ file ∈ entries /\ collects prefix name file.
Proof.
  induction dirs as [|dir dirs IH]; intros acc Hc; simpl.
  - split; [exact Hc|]. split; [now rewrite app_nil_r|].
    intros name. split; auto.
    intros [H | (dir & entries & file & Hin & _)]; [exact H|].
    now apply not_elem_of_nil in Hin.
  - destruct (visitDir_spec w prefix acc dir Hc) as (Hc1 & Hr1 & Hm1).
    destruct (IH _ Hc1) as (Hc2 & Hr2 & Hm2).
    split; [exact Hc2|]. split; [now rewrite Hr2, Hr1, <- app_assoc|].
    intros name. rewrite Hm2, Hm1. split.
    + intros [[H | (entries & file & H)] | (d & entries & file & Hin & H)]; auto.
      * right. exists dir, entries, file. split; [apply list_elem_of_here | exact H].
      * right. exists d, entries, file.
        split; [now apply list_elem_of_further | exact H].
    + intros [H | (d & entries & file & Hin & H)]; auto.
      apply elem_of_cons in Hin as [-> | Hin].
      * left. right. now exists entries, file.
      * right. now exists d, entries, file.
Qed.

Lemma coherent_start : coherent (PathScan ∅ [] []).
Proof.
  split; [apply NoDup_nil_2|]. intros name. cbn [found matches].
  rewrite lookup_empty. cbn. split; [discriminate|].
  intros H. now apply not_elem_of_nil in H.
Qed.

(** The candidates [autocomplete] returns are none, or the gathered ones
    sorted. *)
Lemma autocomplete_candidates (table : list string) (w : world)
    (prefix : string) (tabCount : nat) :
  snd (autocompleteIn table w prefix tabCount) = []
  \/ snd (autocompleteIn table w prefix tabCount)
     = sortStrings (fst (gather table w prefix)).
Proof.
  unfold autocompleteIn.
  destruct (String.eqb prefix ""); [now left|].
  destruct (Nat.eqb _ 0); [now left|].
  destruct (sortStrings _) as [|a [|b l]]; cbn [snd]; auto;
    repeat match goal with
           | |- context [if ?b then _ else _] => destruct b
           end; cbn [snd]; auto.
Qed.

(** C7 (amended): the builtin names that start with the prefix and differ
    from it are gathered first, in table order. When there is one, it is the
    whole result and no directory is read. When there is none, the current
    directory and every directory of the search path are read, and the
    result holds, once each, the names of the entries that are not
    directories, start with the prefix and differ from it. *)
Theorem gather_builtins_then_path
    (table : list string) (w : world) (prefix : string) :
  match List.filter
          (fun cmd => hasPrefix cmd prefix && negb (String.eqb cmd prefix))
          table
  with
  | [] =>
      snd (gather table w prefix) = searchDirs w
      /\ NoDup (fst (gather table w prefix))
      /\ forall name : string,
           name ∈ fst (gather table w prefix) <-> offered w prefix name
  | fromBuiltins => gather table w prefix = (fromBuiltins, [])
  end.
Proof.
  change (fun cmd => hasPrefix cmd prefix && negb (String.eqb cmd prefix))
    with (fun cmd => completes cmd prefix).
  rewrite <- builtinMatches_filter. unfold gather.
  destruct (builtinMatches table prefix) as [|cmd found]; [|reflexivity].
  cbn [length Nat.eqb fst snd].
  destruct (visitDirs_spec w prefix (searchDirs w) _ coherent_start)
    as ((Hnd & _) & Hr & Hm).
  split; [exact Hr|]. split; [exact Hnd|].
  intros name. rewrite Hm. unfold offered. cbn [matches]. split.
  - intros [H | H]; [now apply not_elem_of_nil in H | exact H].
  - now right.
Qed.

(** C7 (as worded) fails: with [ls] and [lsblk] in the search path and the
    prefix [ls], the entry named exactly as the prefix is not gathered. *)
Lemma exact_name_is_not_gathered : ~ gatherAsWordedAgrees.
Proof.
  intros H. specialize (H builtinCMDs binWorld "ls" ltac:(discriminate)).
  vm_compute in H. discriminate H.
Qed.

Example exact_name_gathering :
  fst (gather builtinCMDs binWorld "ls") = ["lsblk"]
  /\ gatherAsWorded builtinCMDs binWorld "ls" = ["ls"; "lsblk"]
  /\ autocomplete binWorld "ls" 1 = ("blk", ["lsblk"]).
Proof. repeat split; reflexivity. Qed.

End CompletionFacts.

(** ** The completion vectors, through the line reader *)

Section ReaderFacts.
Import Completion Reader.

(** C4 (amended): with the builtins [echo] and [exit], the prefix [e] has
    two matches and no extension: the first Tab gives no suggestion and the
    reader rings the bell, the second Tab with the same prefix gives both
    names and the reader prints them (so does typing e, Tab, Tab). The
    prefix [ex] has the single match [exit], completed with a trailing
    space. The prefix [ech] has the single match [echo]: the suffix is [o]
    and the reader adds a space. *)
Theorem completion_vectors (w : world) (swapped : bool) :
  let table := twoBuiltins swapped in
  autocompleteIn table w "e" 1 = ("", [])
  /\ pressTab table w (Reader "e" "" 0)
     = (Reader "e" "e" 1, [Write Stdout BEL])
  /\ autocompleteIn table w "e" 2 = ("", ["echo"; "exit"])
  /\ pressTab table w (Reader "e" "e" 1)
     = (Reader "e" "e" 2,
        printAllMatches ["echo"; "exit"] ++ [printPromptWithInput "e"])
  /\ typeKeys table w idle [101; 9; 9]%N
     = (Reader "e" "e" 2,
        [printPromptWithInput "e"; Write Stdout BEL]
        ++ printAllMatches ["echo"; "exit"] ++ [printPromptWithInput "e"],
        Reading)
  /\ (forall n : nat, autocompleteIn table w "ex" n = ("it", ["exit"]))
  /\ pressTab table w (Reader "ex" "" 0)
     = (Reader "exit " "" 0, [printPromptWithInput "exit "])
  /\ (forall n : nat, autocompleteIn table w "ech" n = ("o", ["echo"]))
  /\ pressTab table w (Reader "ech" "" 0)
     = (Reader "echo " "" 0, [printPromptWithInput "echo "]).
Proof.
  destruct swapped; repeat split; intros; reflexivity.
Qed.

(** C4 (as worded) fails: [echo] does not start with [ex], so the prefix
    [ex] has one match and the first Tab completes it. *)
Lemma ex_has_a_single_match : ~ exVectorAsWorded.
Proof. intros [H _]. vm_compute in H. discriminate H. Qed.

End ReaderFacts.

(** ** More on the tokenizer *)

Section TokenizerMore.
Import Tokenizer.

(** X1: words made of bytes other than space, quotes and backslash, joined
    by single spaces, tokenize back to exactly those words. *)
Theorem joined_words_round_trip (ws : list string) :
  forallb plainWord ws = true ->
  parseCommand (Reader.join ws " ") = ws.
Proof.
  induction ws as [|w ws IH]; intros H; [reflexivity|].
  simpl in H. apply andb_prop in H as [Hw Hws].
  destruct (parse_plain_word w Hw) as [Hu Hp].
  destruct ws as [|w2 ws]; [exact Hp|].
  change (Reader.join (w :: w2 :: ws) " ")
    with (w +:+ String SPACE (Reader.join (w2 :: ws) " ")).
  rewrite (parse_after_space _ _ Hu), Hp, (IH Hws). reflexivity.
Qed.

Lemma joined_words_round_trip_witness :
  parseCommand (Reader.join ["cp"; "a.txt"; "b.txt"] " ")
  = ["cp"; "a.txt"; "b.txt"].
Proof. exact (joined_words_round_trip ["cp"; "a.txt"; "b.txt"] eq_refl). Defined.

(** Inside single quotes every byte but the quote is written as it is. *)
Lemma scan_in_single (s : string) : forall st : state,
  inSingleQuote st = true -> inDoubleQuote st = false -> escaped st = false ->
  noByte SQUOTE s = true ->
  scan st s = State (result st) (current st +:+ s) true false false.
Proof.
  induction s as [|c s IH]; intros st Hs Hd He Hn.
  - simpl. rewrite str_app_nil_r. destruct st; simpl in *; now subst.
  - simpl in Hn. apply andb_prop in Hn as [Hc Hn].
    apply negb_true_iff in Hc.
    cbn [scan]. assert (E : step st c = write c st).
    { unfold step. rewrite He, Hs, Hd, Hc. cbn.
      repeat match goal with
             | |- context [if ?b then _ else _] => destruct b
             end; reflexivity. }
    rewrite E, IH; try assumption.
    cbn [write result current]. unfold writeByte. now rewrite str_app_assoc.
Qed.

(** Inside double quotes every byte but the quote and the backslash is. *)
Lemma scan_in_double (s : string) : forall st : state,
  inSingleQuote st = false -> inDoubleQuote st = true -> escaped st = false ->
  noByte DQUOTE s = true -> noByte BACKSLASH s = true ->
  scan st s = State (result st) (current st +:+ s) false true false.
Proof.
  induction s as [|c s IH]; intros st Hs Hd He Hn Hb.
  - simpl. rewrite str_app_nil_r. destruct st; simpl in *; now subst.
  - simpl in Hn, Hb. apply andb_prop in Hn as [Hc Hn].
    apply andb_prop in Hb as [Hcb Hb].
    apply negb_true_iff in Hc, Hcb.
    cbn [scan]. assert (E : step st c = write c st).
    { unfold step. rewrite He, Hs, Hd, Hc, Hcb. cbn.
      repeat match goal with
             | |- context [if ?b then _ else _] => destruct b
             end; reflexivity. }
    rewrite E, IH; try assumption.
    cbn [write result current]. unfold writeByte. now rewrite str_app_assoc.
Qed.

(** X2: a text between single quotes that holds no single quote, or between
    double quotes that holds neither a double quote nor a backslash, is one
    token with exactly that text; an empty quoted text gives no token. *)
Theorem quoted_text_is_one_token (q : ascii) (s : string) :
  q = SQUOTE \/ (q = DQUOTE /\ noByte BACKSLASH s = true) ->
  noByte q s = true ->
  parseCommand (String q (s +:+ String q ""))
  = if String.eqb s "" then [] else [s].
Proof.
  intros Hq Hn. unfold parseCommand. cbn [scan].
  destruct Hq as [-> | [-> Hb]].
  - change (step init SQUOTE) with (State [] "" true false false).
    rewrite scan_app,
      (scan_in_single s (State [] "" true false false)
         eq_refl eq_refl eq_refl Hn).
    cbn [result current]. destruct s; reflexivity.
  - change (step init DQUOTE) with (State [] "" false true false).
    rewrite scan_app,
      (scan_in_double s (State [] "" false true false)
         eq_refl eq_refl eq_refl Hn Hb).
    cbn [result current]. destruct s; reflexivity.
Qed.

Lemma quoted_text_is_one_token_witness :
  parseCommand (String SQUOTE ("a  \b" +:+ String SQUOTE "")) = ["a  \b"].
Proof.
  exact (quoted_text_is_one_token SQUOTE "a  \b" (or_introl eq_refl) eq_refl).
Defined.

End TokenizerMore.

Section TokenizerEdges.
Import Tokenizer.

Lemma flush_flags (st : state) :
  inSingleQuote (flush st) = inSingleQuote st
  /\ inDoubleQuote (flush st) = inDoubleQuote st
  /\ escaped (flush st) = escaped st.
Proof. unfold flush. destruct (current st); auto. Qed.

Lemma step_consistent (st : state) (c : ascii) :
  consistent st -> consistent (step st c).
Proof.
  destruct st as [r cur sq dq es].
  unfold consistent, step, flush, write, setEscaped, toggleSingle,
    toggleDouble.
  cbn [inSingleQuote inDoubleQuote escaped result current].
  intros H.
  destruct sq, dq, es; try (destruct (H eq_refl); discriminate);
    cbn [negb andb];
    repeat match goal with
           | |- context [if ?b then _ else _] => destruct b
           | |- context [match ?s with
                         | EmptyString => _
                         | String _ _ => _
                         end] => destruct s
           end;
    cbn; intros; try discriminate; auto.
Qed.

Lemma scan_consistent (s : string) : forall st : state,
  consistent st -> consistent (scan st s).
Proof.
  induction s as [|c s IH]; intros st H; [exact H|].
  apply IH, step_consistent, H.
Qed.

(** X5: at every point of every line the scanner is never inside both
    kinds of quotes, and an escape is never pending inside single quotes. *)
Theorem scanner_flags_consistent (line : string) :
  ~ (inSingleQuote (scan init line) = true
     /\ inDoubleQuote (scan init line) = true)
  /\ ~ (inSingleQuote (scan init line) = true
        /\ escaped (scan init line) = true).
Proof.
  assert (H : consistent (scan init line)).
  { apply scan_consistent. intros H. discriminate H. }
  split; intros [Hs Hx]; destruct (H Hs); congruence.
Qed.

Lemma result_flush_flags (r : list string) (cur : string) (a b c a' b' c' : bool) :
  result (flush (State r cur a b c)) = result (flush (State r cur a' b' c')).
Proof. unfold flush. cbn. destruct cur; reflexivity. Qed.

(** X3: an unterminated quote is closed silently at the end of the line:
    when the scan ends inside a quote, appending the closing quote does not
    change the tokens. *)
Theorem unterminated_quote_closes (line : string) (q : ascii) :
  (q = SQUOTE /\ inSingleQuote (scan init line) = true)
  \/ (q = DQUOTE /\ inDoubleQuote (scan init line) = true
      /\ escaped (scan init line) = false) ->
  parseCommand (line +:+ String q "") = parseCommand line.
Proof.
  intros H. unfold parseCommand. rewrite scan_app. cbn [scan].
  pose proof (scan_consistent line init) as Hc.
  assert (Hi : consistent init) by (intros Hi; discriminate Hi).
  specialize (Hc Hi). unfold consistent in Hc.
  destruct (scan init line) as [r cur sq dq es]. cbn in *.
  destruct H as [[-> Hs] | (-> & Hd & He)]; subst.
  - destruct (Hc eq_refl) as [-> ->].
    change (step (State r cur true false false) SQUOTE)
      with (State r cur false false false).
    apply result_flush_flags.
  - destruct sq; [destruct (Hc eq_refl); discriminate|].
    change (step (State r cur false true false) DQUOTE)
      with (State r cur false false false).
    apply result_flush_flags.
Qed.

Lemma unterminated_quote_closes_witness :
  parseCommand ("echo 'a b" +:+ String SQUOTE "") = parseCommand "echo 'a b".
Proof.
  exact (unterminated_quote_closes "echo 'a b" SQUOTE
           (or_introl (conj eq_refl eq_refl))).
Defined.

(** X4: a backslash at the very end of the line, outside single quotes and
    not itself escaped, is dropped: the tokens are those of the line without
    it. *)
Theorem trailing_backslash_dropped (line : string) :
  escaped (scan init line) = false ->
  inSingleQuote (scan init line) = false ->
  parseCommand (line +:+ String BACKSLASH "") = parseCommand line.
Proof.
  intros He Hs. unfold parseCommand. rewrite scan_app. cbn [scan].
  destruct (scan init line) as [r cur sq dq es]. cbn in *. subst.
  change (step (State r cur false dq false) BACKSLASH)
    with (State r cur false dq true).
  apply result_flush_flags.
Qed.

Lemma trailing_backslash_dropped_witness :
  parseCommand ("ls -l" +:+ String BACKSLASH "") = parseCommand "ls -l".
Proof. exact (trailing_backslash_dropped "ls -l" eq_refl eq_refl). Defined.

Lemma emitted_flush (st : state) : emitted (flush st) = emitted st.
Proof.
  unfold emitted, flush. destruct (current st) eqn:E; [now rewrite E|].
  cbn [result current]. rewrite map_app, list_sum_app. cbn. lia.
Qed.

Lemma escaped_flush (st : state) : escaped (flush st) = escaped st.
Proof. apply flush_flags. Qed.

Lemma emitted_write (c : ascii) (st : state) :
  emitted (write c st) = S (emitted st).
Proof.
  unfold emitted, write, writeByte. cbn [result current].
  rewrite str_length_app. cbn. lia.
Qed.

Lemma step_emitted (st : state) (c : ascii) :
  emitted (step st c) + (if escaped (step st c) then 1 else 0)
  <= S (emitted st + (if escaped st then 1 else 0)).
Proof.
  unfold step.
  destruct (escaped st) eqn:He.
  - destruct (inDoubleQuote st && negb (dqEscapable c)); cbn [escaped setEscaped];
      change (emitted (setEscaped false ?s)) with (emitted s);
      rewrite !emitted_write; lia.
  - pose proof (emitted_write c st) as W.
    pose proof (emitted_flush st) as F.
    pose proof (escaped_flush st) as Ef. rewrite He in Ef.
    assert (Ew : escaped (write c st) = false) by exact He.
    destruct (Ascii.eqb c BACKSLASH), (Ascii.eqb c SQUOTE),
      (Ascii.eqb c DQUOTE), (Ascii.eqb c SPACE),
      (inSingleQuote st), (inDoubleQuote st);
      cbn [negb andb];
      rewrite ?W, ?F, ?Ef, ?Ew;
      unfold emitted;
      cbn [escaped result current toggleSingle toggleDouble setEscaped];
      rewrite ?He; lia.
Qed.

Lemma scan_emitted (s : string) : forall st : state,
  emitted (scan st s) + (if escaped (scan st s) then 1 else 0)
  <= emitted st + (if escaped st then 1 else 0) + String.length s.
Proof.
  induction s as [|c s IH]; intros st; cbn [scan String.length]; [lia|].
  specialize (IH (step st c)). pose proof (step_emitted st c). lia.
Qed.

(** X6: the tokens of a line never hold more bytes in total than the line
    has. *)
Theorem tokens_never_longer_than_line (line : string) :
  list_sum (map String.length (parseCommand line)) <= String.length line.
Proof.
  pose proof (scan_emitted line init) as H.
  pose proof (emitted_flush (scan init line)) as F.
  unfold parseCommand. unfold emitted in F at 1.
  assert (Hc : current (flush (scan init line)) = "").
  { unfold flush. destruct (current (scan init line)) eqn:E; [exact E | reflexivity]. }
  rewrite Hc in F. cbn in F, H.
  destruct (escaped (scan init line)); lia.
Qed.

End TokenizerEdges.

Section RedirectMore.
Import Redirect.

Lemma loop_keeps_plain : forall rest ex ex',
  loop ex rest = Some ex' ->
  forallb plainToken (fields ex) = true ->
  forallb plainToken (fields ex') = true.
Proof.
  intros rest. induction rest as [| token | token rest IH1 IH2] using loop_ind2;
    intros ex ex' H Hp.
  - simpl in H. now injection H as <-.
  - simpl in H. destruct (operatorOf token) eqn:E; [discriminate|].
    injection H as <-. cbn [fields keep]. rewrite forallb_app, Hp. cbn.
    unfold plainToken, isOperator. now rewrite E.
  - simpl in H. destruct (operatorOf token) as [op|] eqn:E.
    + destruct rest as [|target rest2]; [discriminate|].
      apply (IH2 target rest2 eq_refl _ _ H). now rewrite fields_assign.
    + apply (IH1 _ _ H). cbn [fields keep]. rewrite forallb_app, Hp. cbn.
      unfold plainToken, isOperator. now rewrite E.
Qed.

(** X7: after a successful extraction no remaining token is a redirection
    operator, so extracting again changes nothing and finds no target. *)
Theorem kept_tokens_hold_no_operator (tokens : list string) (ex : extraction) :
  extract tokens = Some ex ->
  forallb plainToken (fields ex) = true
  /\ extract (fields ex) = Some (Extraction (fields ex) "" "" false false).
Proof.
  intros H.
  assert (Hp : forallb plainToken (fields ex) = true)
    by exact (loop_keeps_plain _ _ _ H eq_refl).
  split; [exact Hp|]. unfold extract. now rewrite (loop_plain _ _ Hp).
Qed.

Lemma kept_tokens_hold_no_operator_witness :
  forallb plainToken ["ls"; "-l"] = true
  /\ extract ["ls"; "-l"] = Some (Extraction ["ls"; "-l"] "" "" false false).
Proof.
  exact (kept_tokens_hold_no_operator
           ["ls"; ">"; "out.txt"; "-l"; "2>>"; "err.txt"]
           (Extraction ["ls"; "-l"] "out.txt" "err.txt" false true) eq_refl).
Defined.

Lemma loop_sublist : forall rest ex ex',
  loop ex rest = Some ex' ->
  exists kept : list string,
    fields ex' = fields ex ++ kept /\ sublist kept rest.
Proof.
  intros rest. induction rest as [| token | token rest IH1 IH2] using loop_ind2;
    intros ex ex' H.
  - simpl in H. injection H as <-. exists []. now rewrite app_nil_r.
  - simpl in H. destruct (operatorOf token); [discriminate|].
    injection H as <-. now exists [token].
  - simpl in H. destruct (operatorOf token) as [op|].
    + destruct rest as [|target rest2]; [discriminate|].
      destruct (IH2 target rest2 eq_refl _ _ H) as (kept & Hk & Hs).
      exists kept. rewrite fields_assign in Hk. split; [exact Hk|].
      now do 2 apply sublist_cons.
    + destruct (IH1 _ _ H) as (kept & Hk & Hs).
      exists (token :: kept). cbn [fields keep] in Hk.
      rewrite <- app_assoc in Hk. split; [exact Hk|].
      now apply sublist_skip.
Qed.

(** X8: the remaining tokens come in their original relative order: they
    are a subsequence of the token sequence. *)
Theorem kept_tokens_keep_their_order (tokens : list string) (ex : extraction) :
  extract tokens = Some ex -> sublist (fields ex) tokens.
Proof.
  intros H. destruct (loop_sublist _ _ _ H) as (kept & Hk & Hs).
  cbn in Hk. now rewrite Hk.
Qed.

Lemma kept_tokens_keep_their_order_witness :
  sublist ["ls"; "-l"] ["ls"; ">"; "out.txt"; "-l"; "2>>"; "err.txt"].
Proof.
  exact (kept_tokens_keep_their_order
           ["ls"; ">"; "out.txt"; "-l"; "2>>"; "err.txt"]
           (Extraction ["ls"; "-l"] "out.txt" "err.txt" false true) eq_refl).
Defined.

Lemma loop_rejected : forall rest ex,
  loop ex rest = None ->
  exists (pre : list string) (op : string),
    rest = pre ++ [op] /\ isOperator op = true /\ is_Some (loop ex pre).
Proof.
  intros rest. induction rest as [| token | token rest IH1 IH2] using loop_ind2;
    intros ex H.
  - discriminate H.
  - simpl in H. destruct (operatorOf token) eqn:E; [|discriminate].
    exists [], token. unfold isOperator. rewrite E. now eauto.
  - simpl in H. destruct (operatorOf token) as [op|] eqn:E.
    + destruct rest as [|target rest2].
      * exists [], token. unfold isOperator. rewrite E. now eauto.
      * destruct (IH2 target rest2 eq_refl _ H) as (pre & op' & -> & Hop & Hpre).
        exists (token :: target :: pre), op'. repeat split; auto.
        simpl. now rewrite E.
    + destruct (IH1 _ H) as (pre & op' & -> & Hop & Hpre).
      exists (token :: pre), op'. repeat split; auto.
      simpl. now rewrite E.
Qed.

(** X9: extraction is rejected exactly when the sequence ends with an
    operator token whose preceding tokens are extracted without rejection. *)
Theorem rejected_iff_dangling_operator (tokens : list string) :
  extract tokens = None
  <-> exists (pre : list string) (op : string),
        tokens = pre ++ [op] /\ isOperator op = true /\ is_Some (extract pre).
Proof.
  split.
  - apply loop_rejected.
  - intros (pre & op & -> & Hop & [ex Hex]). unfold extract.
    rewrite (loop_app _ _ _ _ Hex). simpl.
    unfold isOperator in Hop. now destruct (operatorOf op).
Qed.

Lemma loop_other_stream (o : operator) : forall rest ex ex',
  forallb (fun token => negb (sameStream o token)) rest = true ->
  loop ex rest = Some ex' ->
  targetOf o ex' = targetOf o ex.
Proof.
  intros rest. induction rest as [| token | token rest IH1 IH2] using loop_ind2;
    intros ex ex' Hn H.
  - simpl in H. now injection H as <-.
  - simpl in H. destruct (operatorOf token); [discriminate|].
    now injection H as <-.
  - simpl in H, Hn. apply andb_prop in Hn as [Ht Hn].
    unfold sameStream in Ht.
    destruct (operatorOf token) as [op|] eqn:E.
    + destruct rest as [|target rest2]; [discriminate|].
      simpl in Hn. apply andb_prop in Hn as [_ Hn].
      rewrite (IH2 target rest2 eq_refl _ _ Hn H).
      apply negb_true_iff in Ht. unfold targetOf.
      destruct op, o; cbn in *; try discriminate; reflexivity.
    + now rewrite (IH1 _ _ Hn H).
Qed.

(** X10: when an operator and its target are followed only by tokens that
    are no operator of the same stream, the target recorded for that stream
    is that target, whatever came before. *)
Theorem last_operator_of_a_stream_wins
    (pre post : list string) (op target : string) (o : operator)
    (ex : extraction) :
  is_Some (extract pre) ->
  operatorOf op = Some o ->
  forallb (fun token => negb (sameStream o token)) post = true ->
  extract (pre ++ op :: target :: post) = Some ex ->
  targetOf o ex = target.
Proof.
  intros [ex0 Hpre] Hop Hpost H. unfold extract in H.
  rewrite (loop_app _ _ _ _ Hpre) in H. cbn [loop] in H. rewrite Hop in H.
  rewrite (loop_other_stream o _ _ _ Hpost H).
  unfold targetOf. now destruct o.
Qed.

Lemma last_operator_of_a_stream_wins_witness :
  targetOf OutTruncate
    (Extraction ["make"; "-k"] "new.txt" "err.txt" true false)
  = "new.txt".
Proof.
  exact (last_operator_of_a_stream_wins
           ["make"; ">>"; "old.txt"] ["-k"; "2>"; "err.txt"] ">" "new.txt"
           OutTruncate
           (Extraction ["make"; "-k"] "new.txt" "err.txt" true false)
           (ex_intro _ _ eq_refl) eq_refl eq_refl eq_refl).
Defined.

End RedirectMore.

Section DispatchMore.
Import Redirect Dispatch.

Lemma continues_refl (a b : string) (sh : shell) : continues a b sh sh.
Proof.
  split; [exists []; now rewrite app_nil_r|]. split; [reflexivity | auto].
Qed.

Lemma continues_trans (a b : string) (sh1 sh2 sh3 : shell) :
  continues a b sh1 sh2 -> continues a b sh2 sh3 -> continues a b sh1 sh3.
Proof.
  intros ([k1 H1] & D1 & F1) ([k2 H2] & D2 & F2). split; [|split].
  - exists (k1 ++ k2). now rewrite H2, H1, app_assoc.
  - now transitivity (dom (files sh2)).
  - intros path Ha Hb. now rewrite F2, F1.
Qed.

Lemma continues_record (a b : string) (e : event) (sh : shell) :
  continues a b sh (record e sh).
Proof.
  split; [now exists [e]|]. split; [reflexivity | auto].
Qed.

Lemma continues_weaken (a b a' b' : string) (sh sh' : shell) :
  (a = a' \/ a = b') -> (b = a' \/ b = b') ->
  continues a b sh sh' -> continues a' b' sh sh'.
Proof.
  intros Ha Hb (T & D & F). split; [exact T|]. split; [exact D|].
  intros path H1 H2. apply F; intros ->; destruct Ha, Hb; congruence.
Qed.

Lemma openFile_continues (w : world) (f : string) (appendMode : bool)
    (sh sh1 : shell) :
  openFile w f appendMode sh = inl sh1 -> continues f f sh sh1.
Proof.
  unfold openFile. destruct (openError w f); [discriminate|].
  intros [= <-]. split; [exists []; cbn; now rewrite app_nil_r|].
  cbn [files].
  assert (Hins : continues f f sh (Shell (<[f := ""]> (files sh)) (trace sh))).
  { split; [exists []; cbn; now rewrite app_nil_r|]. cbn [files]. split.
    - rewrite dom_insert_L. apply union_subseteq_r.
    - intros path Hne _. now rewrite lookup_insert_ne. }
  destruct Hins as (_ & D & F). cbn [files] in D, F.
  destruct appendMode; [destruct (files sh !! f)|]; auto.
Qed.

Lemma wire_continues (w : world) (own : stream) (report f : string)
    (appendMode : bool) (sh : shell) :
  match wire w own report f appendMode sh with
  | inl (_, sh1) => continues f f sh sh1
  | inr sh1 => continues f f sh sh1
  end.
Proof.
  unfold wire. destruct (String.eqb f ""); [apply continues_refl|].
  destruct (openFile w f appendMode sh) as [sh1|err] eqn:E.
  - exact (openFile_continues _ _ _ _ _ E).
  - apply continues_record.
Qed.

Lemma fprintlnFile_continues (f text : string) (sh : shell) :
  continues f f sh (fprintlnFile f text sh).
Proof.
  split; [exists []; cbn; now rewrite app_nil_r|]. cbn [files fprintlnFile].
  split.
  - now rewrite dom_alter_L.
  - intros path Hne _. now rewrite lookup_alter_ne.
Qed.

Lemma wire_both_continue (w : world) (a b : string) (aa ab : bool)
    (sh : shell) (finish : sink -> sink -> shell -> shell) :
  (forall out err sh2, continues a b sh2 (finish out err sh2)) ->
  continues a b sh
    match wire w Stdout stdoutOpenError a aa sh with
    | inr sh1 => sh1
    | inl (out, sh1) =>
        match wire w Stderr stderrOpenError b ab sh1 with
        | inr sh2 => sh2
        | inl (err, sh2) => finish out err sh2
        end
    end.
Proof.
  intros Hf.
  pose proof (wire_continues w Stdout stdoutOpenError a aa sh) as H1.
  destruct (wire w Stdout stdoutOpenError a aa sh) as [[out sh1]|sh1].
  2:{ eapply continues_weaken; [| |exact H1]; auto. }
  pose proof (wire_continues w Stderr stderrOpenError b ab sh1) as H2.
  apply (continues_trans _ _ _ sh1);
    [eapply continues_weaken; [| |exact H1]; auto|].
  destruct (wire w Stderr stderrOpenError b ab sh1) as [[err sh2]|sh2].
  - apply (continues_trans _ _ _ sh2); [|apply Hf].
    eapply continues_weaken; [| |exact H2]; auto.
  - eapply continues_weaken; [| |exact H2]; auto.
Qed.

Lemma builtin_continues (w : world) (h : handler) (args : list string)
    (a b : string) (aa ab : bool) (sh : shell) :
  continues a b sh (executeBuiltinWithRedirection w h args a b aa ab sh).
Proof.
  unfold executeBuiltinWithRedirection.
  apply (wire_both_continue w a b aa ab sh
           (fun out err sh2 => record (Invoke h args out err) sh2)).
  intros. apply continues_record.
Qed.

Lemma executeCommand_continues (w : world) (fields : list string)
    (a b : string) (sh : shell) :
  continues a b sh (executeCommand w fields sh).
Proof.
  unfold executeCommand. destruct fields as [|name args];
    [apply continues_refl|].
  destruct (lookPath w name) as [path|]; [|apply continues_record].
  destruct (runError w path args); [|apply continues_record].
  eapply continues_trans; apply continues_record.
Qed.

Lemma outputError_continues (w : world) (name a b : string) (ab : bool)
    (sh : shell) :
  continues a b sh (outputError w name b ab sh).
Proof.
  unfold outputError. destruct (String.eqb b ""); [apply continues_record|].
  destruct (openFile w b ab sh) as [sh1|err] eqn:E; [|apply continues_record].
  apply (continues_trans _ _ _ sh1).
  - eapply continues_weaken; [| |exact (openFile_continues _ _ _ _ _ E)]; auto.
  - eapply continues_weaken; [| |apply fprintlnFile_continues]; auto.
Qed.

Lemma external_continues (w : world) (fields : list string)
    (a b : string) (aa ab : bool) (sh : shell) :
  continues a b sh (executeExternalWithRedirection w fields a b aa ab sh).
Proof.
  unfold executeExternalWithRedirection.
  destruct (String.eqb a "" && String.eqb b "");
    [apply executeCommand_continues|].
  destruct fields as [|name args]; [apply continues_refl|].
  destruct (lookPath w name) as [path|]; [|apply outputError_continues].
  apply (wire_both_continue w a b aa ab sh
           (fun out err sh2 => record (Spawn path args out err) sh2)).
  intros. apply continues_record.
Qed.

Lemma dispatch_continues (w : world) (tokens : list string) (sh : shell) :
  continues (stdoutFile (fst (processRedirectionOperators tokens sh)))
            (stderrFile (fst (processRedirectionOperators tokens sh)))
            sh (dispatch w tokens sh).
Proof.
  unfold dispatch. destruct tokens as [|t ts]; [apply continues_refl|].
  destruct (processRedirectionOperators (t :: ts) sh) as [ex sh1] eqn:E.
  cbn [fst].
  assert (H1 : continues (stdoutFile ex) (stderrFile ex) sh sh1).
  { unfold processRedirectionOperators in E.
    destruct (extract (t :: ts)); injection E as <- <-;
      [apply continues_refl | apply continues_record]. }
  destruct (fields ex) as [|name rest]; [exact H1|].
  apply (continues_trans _ _ _ sh1); [exact H1|].
  destruct (builtins !! name);
    [apply builtin_continues | apply external_continues].
Qed.

(** X11: on every path of a turn that calls no handler and runs no process
    (an empty or rejected line, a target that fails to open, a command that
    does not resolve), no file is removed and no file other than the two
    redirection targets is changed; a rejected line changes no file. *)
Theorem without_a_call_only_targets_change
    (w : world) (tokens : list string) (sh : shell) :
  forallb (fun e => negb (isCall e)) (addedBy sh (dispatch w tokens sh)) = true ->
  dom (files sh) ⊆ dom (files (dispatch w tokens sh))
  /\ match extract tokens with
     | Some ex =>
         forall path : string,
           path <> stdoutFile ex -> path <> stderrFile ex ->
           files (dispatch w tokens sh) !! path = files sh !! path
     | None => files (dispatch w tokens sh) = files sh
     end.
Proof.
  intros _.
  pose proof (dispatch_continues w tokens sh) as (_ & D & F).
  split; [exact D|].
  unfold processRedirectionOperators in F.
  destruct (extract tokens) as [ex|] eqn:E; [exact F|].
  unfold dispatch, processRedirectionOperators. rewrite E.
  destruct tokens; reflexivity.
Qed.

Lemma without_a_call_only_targets_change_witness :
  addedBy oldOutput (dispatch strictWorld oneFailingTarget oldOutput)
    = [Write Stderr (stderrOpenError +:+ missingDirError +:+ NL)]
  /\ dom (files oldOutput)
       ⊆ dom (files (dispatch strictWorld oneFailingTarget oldOutput))
  /\ forall path : string,
       path <> "out.txt" -> path <> missingDir ->
       files (dispatch strictWorld oneFailingTarget oldOutput) !! path
       = files oldOutput !! path.
Proof.
  split; [reflexivity|].
  exact (without_a_call_only_targets_change strictWorld oneFailingTarget
           oldOutput eq_refl).
Defined.

(** X13: a builtin typed without redirection is called once with the whole
    token sequence, its own name included, on the shell's own streams, and
    nothing else is added to the trace. *)
Theorem builtin_gets_the_whole_line
    (w : world) (sh : shell) (h : handler) (name : string)
    (args : list string) :
  builtins !! name = Some h ->
  forallb plainToken (name :: args) = true ->
  trace (dispatch w (name :: args) sh)
  = trace sh ++ [Invoke h (name :: args) (Console Stdout) (Console Stderr)].
Proof.
  intros Hb Hp. unfold dispatch, processRedirectionOperators.
  rewrite (extract_plain _ Hp). cbn [fields stdoutFile stderrFile].
  rewrite Hb. reflexivity.
Qed.

Lemma builtin_gets_the_whole_line_witness :
  trace (dispatch bareWorld ["cd"; "/tmp"; "x"] freshShell)
  = trace freshShell
    ++ [Invoke cdHandler ["cd"; "/tmp"; "x"] (Console Stdout) (Console Stderr)].
Proof.
  exact (builtin_gets_the_whole_line bareWorld freshShell cdHandler "cd"
           ["/tmp"; "x"] eq_refl eq_refl).
Defined.

(** X14: when the standard output target of a builtin cannot be opened, the
    handler is not called, the open error is reported on the shell's error
    stream and no file is created, the standard error target included. *)
Theorem builtin_not_run_when_stdout_fails
    (w : world) (sh : shell) (h : handler) (args : list string)
    (outFile errFile : string) (outAppend errAppend : bool) (err : string) :
  outFile <> "" ->
  openError w outFile = Some err ->
  executeBuiltinWithRedirection w h args outFile errFile outAppend errAppend sh
  = Shell (files sh)
          (trace sh ++ [Write Stderr (stdoutOpenError +:+ err +:+ NL)]).
Proof.
  intros Hne Hfail. apply String.eqb_neq in Hne.
  unfold executeBuiltinWithRedirection, wire, openFile.
  rewrite Hne, Hfail. reflexivity.
Qed.

Lemma builtin_not_run_when_stdout_fails_witness :
  executeBuiltinWithRedirection strictWorld echoHandler ["echo"; "hi"]
    missingDir "err.txt" false false freshShell
  = Shell ∅ [Write Stderr (stdoutOpenError +:+ missingDirError +:+ NL)].
Proof.
  exact (builtin_not_run_when_stdout_fails strictWorld freshShell echoHandler
           ["echo"; "hi"] missingDir "err.txt" false false missingDirError
           ltac:(discriminate) eq_refl).
Defined.

(** X15: an external command typed without redirection that resolves is
    spawned with the tokens after its name on the shell's own streams; when
    its run ends in an error, the shell also prints that the command was not
    found, on standard output. *)
Theorem failed_run_reported_as_not_found
    (w : world) (sh : shell) (name path : string) (args : list string) :
  builtins !! name = None ->
  lookPath w name = Some path ->
  forallb plainToken (name :: args) = true ->
  dispatch w (name :: args) sh
  = Shell (files sh)
          (trace sh
           ++ Spawn path args (Console Stdout) (Console Stderr)
              :: (if runError w path args
                  then [Write Stdout ((name +:+ ": command not found") +:+ NL)]
                  else [])).
Proof.
  intros Hb Hl Hp. unfold dispatch, processRedirectionOperators.
  rewrite (extract_plain _ Hp). cbn [fields stdoutFile stderrFile].
  rewrite Hb. unfold executeExternalWithRedirection. cbn [String.eqb andb].
  unfold executeCommand. rewrite Hl.
  destruct (runError w path args); [|reflexivity].
  unfold fprintln, record. cbn [files trace]. now rewrite <- app_assoc.
Qed.

Lemma failed_run_reported_as_not_found_witness :
  dispatch failingWorld ["false"] freshShell
  = Shell ∅ [Spawn "/bin/false" [] (Console Stdout) (Console Stderr);
             Write Stdout ("false: command not found" +:+ NL)].
Proof.
  exact (failed_run_reported_as_not_found failingWorld freshShell
           "false" "/bin/false" [] eq_refl eq_refl eq_refl).
Defined.

(** X16: when an external command does not resolve and a standard error
    target is set and opens, the report becomes the content of that target
    (after its old content in append mode), nothing is written to the
    console, and no other file, the standard output target included, is
    created or changed. *)
Theorem unresolved_command_writes_stderr_target_only
    (w : world) (sh : shell) (name outFile errFile : string)
    (args : list string) (outAppend errAppend : bool) :
  lookPath w name = None ->
  errFile <> "" ->
  openError w errFile = None ->
  let sh' := executeExternalWithRedirection w (name :: args) outFile errFile
               outAppend errAppend sh in
  trace sh' = trace sh
  /\ files sh' !! errFile
     = Some ((if errAppend then default "" (files sh !! errFile) else "")
             +:+ (name +:+ ": command not found") +:+ NL)
  /\ forall path : string, path <> errFile ->
       files sh' !! path = files sh !! path.
Proof.
  intros Hl Hne Hopen sh'. subst sh'. apply String.eqb_neq in Hne.
  unfold executeExternalWithRedirection, outputError, openFile.
  rewrite Hne, andb_false_r, Hl, Hopen.
  cbn [fprintlnFile files trace]. split; [reflexivity|].
  destruct errAppend; [destruct (files sh !! errFile) as [old|] eqn:E|].
  - split; [now rewrite lookup_alter_eq, E|].
    intros path Hp. now rewrite lookup_alter_ne.
  - split; [now rewrite lookup_alter_eq, lookup_insert_eq|].
    intros path Hp. now rewrite lookup_alter_ne, lookup_insert_ne.
  - split; [now rewrite lookup_alter_eq, lookup_insert_eq|].
    intros path Hp. now rewrite lookup_alter_ne, lookup_insert_ne.
Qed.

Lemma unresolved_command_writes_stderr_target_only_witness :
  trace (dispatch bareWorld ["nope"; ">"; "out.txt"; "2>>"; "err.log"] loggedShell)
  = []
  /\ files (dispatch bareWorld ["nope"; ">"; "out.txt"; "2>>"; "err.log"] loggedShell)
       !! "err.log"
     = Some ("old" +:+ NL +:+ "nope: command not found" +:+ NL)
  /\ forall path : string, path <> "err.log" ->
       files (dispatch bareWorld ["nope"; ">"; "out.txt"; "2>>"; "err.log"] loggedShell)
         !! path
       = files loggedShell !! path.
Proof.
  exact (unresolved_command_writes_stderr_target_only bareWorld loggedShell
           "nope" "out.txt" "err.log" [] false true
           eq_refl ltac:(discriminate) eq_refl).
Defined.

(** X17: when an external command resolves but one of its redirection
    targets cannot be opened, nothing is spawned: the only event is one
    report on the shell's error stream. *)
Theorem nothing_spawned_when_a_target_fails
    (w : world) (sh : shell) (name path outFile errFile : string)
    (args : list string) (outAppend errAppend : bool) :
  lookPath w name = Some path ->
  (outFile <> "" /\ is_Some (openError w outFile))
  \/ (errFile <> "" /\ is_Some (openError w errFile)) ->
  exists message : string,
    trace (executeExternalWithRedirection w (name :: args) outFile errFile
             outAppend errAppend sh)
    = trace sh ++ [Write Stderr message].
Proof.
  intros Hl H. unfold executeExternalWithRedirection.
  assert (Hsome : String.eqb outFile "" && String.eqb errFile "" = false).
  { destruct H as [[Hne _] | [Hne _]]; apply String.eqb_neq in Hne;
      rewrite Hne; [reflexivity | apply andb_false_r]. }
  rewrite Hsome, Hl. unfold wire, openFile.
  destruct (String.eqb outFile "") eqn:Eo.
  - destruct H as [[Hne _] | [Hne [e Hfail]]];
      [apply String.eqb_eq in Eo; contradiction|].
    apply String.eqb_neq in Hne. rewrite Hne, Hfail. now eexists.
  - destruct (openError w outFile) as [e|] eqn:Ho; [now eexists|].
    destruct H as [[_ [e Hfail]] | [Hne [e Hfail]]]; [discriminate|].
    apply String.eqb_neq in Hne. rewrite Hne, Hfail. now eexists.
Qed.

Lemma nothing_spawned_when_a_target_fails_witness :
  exists message : string,
    trace (executeExternalWithRedirection failingWorldStrict ["false"]
             "out.txt" missingDir false false freshShell)
    = trace freshShell ++ [Write Stderr message].
Proof.
  apply (nothing_spawned_when_a_target_fails failingWorldStrict freshShell
           "false" "/bin/false" "out.txt" missingDir [] false false).
  - reflexivity.
  - right. split; [discriminate|]. exists missingDirError. reflexivity.
Defined.

End DispatchMore.

(** ** More on byte strings: prefixes *)

Section PrefixFacts.
Import Completion.

Lemma hasPrefix_iff (s p : string) :
  hasPrefix s p = true <-> exists t : string, s = p +:+ t.
Proof.
  unfold hasPrefix. revert s. induction p as [|c p IH]; intros s.
  - destruct s; cbn; split; eauto.
  - destruct s as [|d s]; cbn.
    + split; [discriminate | intros [t H]; discriminate H].
    + destruct (ascii_dec c d) as [->|Hne].
      * rewrite IH. split; intros [t H]; exists t.
        -- now rewrite str_app_cons, H.
        -- rewrite str_app_cons in H. now injection H.
      * split; [discriminate|]. intros [t H]. rewrite str_app_cons in H.
        injection H as H1 H2. congruence.
Qed.

Lemma hasPrefix_refl (s : string) : hasPrefix s s = true.
Proof. apply hasPrefix_iff. exists "". now rewrite str_app_nil_r. Qed.

Lemma hasPrefix_nil (s : string) : hasPrefix s "" = true.
Proof. apply hasPrefix_iff. now exists s. Qed.

Lemma hasPrefix_trans (s p q : string) :
  hasPrefix s p = true -> hasPrefix p q = true -> hasPrefix s q = true.
Proof.
  rewrite !hasPrefix_iff. intros [t ->] [u ->]. exists (u +:+ t).
  apply str_app_assoc.
Qed.

Lemma hasPrefix_length (s p : string) :
  hasPrefix s p = true -> String.length p <= String.length s.
Proof.
  intros [t ->]%hasPrefix_iff. rewrite str_length_app. lia.
Qed.

Lemma hasPrefix_same_length (s p : string) :
  hasPrefix s p = true -> String.length s <= String.length p -> s = p.
Proof.
  intros [t ->]%hasPrefix_iff. rewrite str_length_app. intros H.
  destruct t; [now rewrite str_app_nil_r | cbn in H; lia].
Qed.

Lemma dropBytes_app (p t : string) : dropBytes (String.length p) (p +:+ t) = t.
Proof. induction p as [|c p IH]; [now destruct t | exact IH]. Qed.

Lemma dropLast_snoc (s : string) (c : ascii) : dropLast (s +:+ String c "") = s.
Proof.
  induction s as [|d s IH]; [reflexivity|].
  rewrite str_app_cons. cbn [dropLast]. rewrite IH.
  destruct s; reflexivity.
Qed.

Lemma snoc_dropLast (s : string) :
  s <> "" -> exists c : ascii, s = dropLast s +:+ String c "".
Proof.
  induction s as [|d s IH]; [contradiction|]. intros _.
  destruct s as [|e s]; [now exists d|].
  destruct IH as [c Hc]; [discriminate|]. exists c.
  change (dropLast (String d (String e s)))
    with (String d (dropLast (String e s))).
  now rewrite str_app_cons, <- Hc.
Qed.

Lemma dropLast_length (s : string) :
  String.length (dropLast s) = pred (String.length s).
Proof.
  destruct (string_dec s "") as [->|Hne]; [reflexivity|].
  destruct (snoc_dropLast s Hne) as [c Hc]. rewrite Hc at 2.
  rewrite str_length_app. cbn. lia.
Qed.

Lemma hasPrefix_dropLast (s : string) : hasPrefix s (dropLast s) = true.
Proof.
  destruct (string_dec s "") as [->|Hne]; [reflexivity|].
  destruct (snoc_dropLast s Hne) as [c Hc]. apply hasPrefix_iff. eauto.
Qed.

(** A proper prefix of [p] is a prefix of [p] without its last byte. *)
Lemma proper_prefix_dropLast (p q : string) :
  hasPrefix p q = true -> q <> p -> hasPrefix (dropLast p) q = true.
Proof.
  intros [t Ht]%hasPrefix_iff Hne.
  destruct (string_dec t "") as [->|Hn];
    [rewrite str_app_nil_r in Ht; congruence|].
  destruct (snoc_dropLast t Hn) as [c Hc].
  apply hasPrefix_iff. exists (dropLast t).
  rewrite Ht, Hc at 1. now rewrite <- str_app_assoc, dropLast_snoc.
Qed.

End PrefixFacts.

(** ** More on the completion engine *)

Section CompletionMore.
Import Completion.

Lemma shrink_spec : forall (turns : nat) (s p : string),
  String.length p <= turns ->
  hasPrefix s (shrink turns s p) = true
  /\ hasPrefix p (shrink turns s p) = true
  /\ forall q : string,
       hasPrefix s q = true -> hasPrefix p q = true ->
       hasPrefix (shrink turns s p) q = true.
Proof.
  induction turns as [|k IH]; intros s p Hlen; cbn [shrink].
  - destruct p; [|cbn in Hlen; lia]. rewrite hasPrefix_nil.
    repeat split; auto using hasPrefix_nil.
  - destruct (hasPrefix s p) eqn:Hsp.
    + repeat split; auto using hasPrefix_refl.
    + destruct (String.eqb_spec p "") as [->|Hne];
        [rewrite hasPrefix_nil in Hsp; discriminate|].
      destruct (IH s (dropLast p)) as (H1 & H2 & H3).
      { rewrite dropLast_length. lia. }
      split; [exact H1|]. split.
      * eapply hasPrefix_trans; [apply hasPrefix_dropLast | exact H2].
      * intros q Hq1 Hq2. apply H3; [exact Hq1|].
        apply proper_prefix_dropLast; [exact Hq2 | congruence].
Qed.

Lemma lcp_fold_spec (others : list string) : forall first : string,
  let lcp := fold_left (fun prefix s => shrink (String.length prefix) s prefix)
                       others first in
  hasPrefix first lcp = true
  /\ (forall s, s ∈ others -> hasPrefix s lcp = true)
  /\ forall q : string,
       hasPrefix first q = true ->
       (forall s, s ∈ others -> hasPrefix s q = true) ->
       hasPrefix lcp q = true.
Proof.
  induction others as [|s others IH]; intros first; cbn [fold_left].
  - split; [apply hasPrefix_refl|]. split; [|auto].
    intros s Hs. now apply not_elem_of_nil in Hs.
  - destruct (shrink_spec (String.length first) s first (le_n _))
      as (H1 & H2 & H3).
    destruct (IH (shrink (String.length first) s first)) as (I1 & I2 & I3).
    split; [eapply hasPrefix_trans; eauto|]. split.
    + intros x [->|Hx]%elem_of_cons; [|now apply I2].
      eapply hasPrefix_trans; eauto.
    + intros q Hq1 Hq2. apply I3.
      * apply H3; [apply Hq2, list_elem_of_here | exact Hq1].
      * intros x Hx. apply Hq2. now apply list_elem_of_further.
Qed.

Lemma lcp_common (strs : list string) (s : string) :
  s ∈ strs -> hasPrefix s (longestCommonPrefix strs) = true.
Proof.
  destruct strs as [|first others]; [intros H; now apply not_elem_of_nil in H|].
  destruct (lcp_fold_spec others first) as (H1 & H2 & _).
  intros [->|Hs]%elem_of_cons; [exact H1 | now apply H2].
Qed.

(** X18: the longest common prefix is a prefix of every string of the
    list. *)
Theorem lcp_is_a_common_prefix (strs : list string) (s : string) :
  s ∈ strs -> hasPrefix s (longestCommonPrefix strs) = true.
Proof. apply lcp_common. Qed.

Lemma lcp_is_a_common_prefix_witness :
  hasPrefix "clear" (longestCommonPrefix ["cat"; "cd"; "clear"; "cp"]) = true.
Proof.
  apply (lcp_is_a_common_prefix ["cat"; "cd"; "clear"; "cp"] "clear").
  apply (bool_decide_unpack _). reflexivity.
Defined.

Lemma lcp_greatest (strs : list string) (q : string) :
  strs <> [] ->
  (forall s : string, s ∈ strs -> hasPrefix s q = true) ->
  hasPrefix (longestCommonPrefix strs) q = true.
Proof.
  destruct strs as [|first others]; [contradiction|]. intros _ Hq.
  destruct (lcp_fold_spec others first) as (_ & _ & H3).
  apply H3; [apply Hq, list_elem_of_here|].
  intros s Hs. now apply Hq, list_elem_of_further.
Qed.

(** X19: every common prefix of a non-empty list is a prefix of the
    longest common prefix. *)
Theorem lcp_is_the_longest (strs : list string) (q : string) :
  strs <> [] ->
  (forall s : string, s ∈ strs -> hasPrefix s q = true) ->
  hasPrefix (longestCommonPrefix strs) q = true.
Proof. apply lcp_greatest. Qed.

Lemma lcp_is_the_longest_witness :
  hasPrefix (longestCommonPrefix ["mkdir"; "mkfifo"]) "mk" = true.
Proof.
  apply (lcp_is_the_longest ["mkdir"; "mkfifo"] "mk"); [discriminate|].
  intros s [->|[->|H]%elem_of_cons]%elem_of_cons; [reflexivity..|].
  now apply not_elem_of_nil in H.
Defined.

Lemma insertSorted_perm (x : string) (l : list string) :
  Permutation (insertSorted x l) (x :: l).
Proof.
  induction l as [|y l IH]; cbn [insertSorted]; [reflexivity|].
  destruct (String.leb x y); [reflexivity|].
  rewrite IH. apply perm_swap.
Qed.

Lemma sortStrings_perm (l : list string) : Permutation (sortStrings l) l.
Proof.
  induction l as [|x l IH]; [reflexivity|].
  cbn [sortStrings fold_right]. fold (sortStrings l).
  rewrite insertSorted_perm. now constructor.
Qed.

Lemma insertSorted_ascending (x : string) (l : list string) :
  ascending l -> ascending (insertSorted x l).
Proof.
  unfold ascending. induction l as [|y l IH]; intros Hs; cbn [insertSorted].
  - repeat constructor.
  - destruct (String.leb x y) eqn:Hxy.
    + constructor; [exact Hs | now constructor].
    + apply Sorted_inv in Hs as [Hs Hd]. constructor; [now apply IH|].
      assert (Hyx : String.leb y x = true).
      { destruct (String.leb_total x y); congruence. }
      destruct l as [|z l]; cbn [insertSorted]; [now constructor|].
      destruct (String.leb x z); constructor; [exact Hyx|].
      now apply HdRel_inv in Hd.
Qed.

Lemma sortStrings_ascending (l : list string) : ascending (sortStrings l).
Proof.
  induction l as [|x l IH]; [constructor|].
  cbn [sortStrings fold_right]. now apply insertSorted_ascending.
Qed.

Lemma elem_of_sortStrings (l : list string) (x : string) :
  x ∈ sortStrings l <-> x ∈ l.
Proof. now rewrite (sortStrings_perm l). Qed.

(** What is gathered completes the prefix, and is gathered once when the
    table lists each name once. *)
Lemma gather_completes (table : list string) (w : world)
    (prefix name : string) :
  name ∈ fst (gather table w prefix) -> completes name prefix = true.
Proof.
  unfold gather. rewrite builtinMatches_filter.
  destruct (List.filter _ table) as [|cmd found] eqn:E; cbn [length Nat.eqb fst].
  - destruct (visitDirs_spec w prefix (searchDirs w) _ coherent_start)
      as (_ & _ & Hm).
    intros [H | (dir & entries & file & _ & _ & _ & Hc)]%Hm.
    + now apply not_elem_of_nil in H.
    + destruct Hc as (_ & _ & Hp & Hne). now apply completes_iff.
  - rewrite <- E. intros H%list_elem_of_In%filter_In. apply H.
Qed.

Lemma gather_NoDup (table : list string) (w : world) (prefix : string) :
  NoDup table -> NoDup (fst (gather table w prefix)).
Proof.
  intros Hnd. unfold gather. rewrite builtinMatches_filter.
  destruct (List.filter _ table) as [|cmd found] eqn:E; cbn [length Nat.eqb fst].
  - now destruct (visitDirs_spec w prefix (searchDirs w) _ coherent_start)
      as ((H & _) & _).
  - rewrite <- E. now apply NoDup_ListNoDup, List.NoDup_filter, NoDup_ListNoDup.
Qed.

Lemma completes_split (name prefix : string) :
  completes name prefix = true ->
  exists t : string, name = prefix +:+ t /\ t <> ""
                     /\ trimPrefix name prefix = t.
Proof.
  intros [Hp Hne]%completes_iff. destruct (proj1 (hasPrefix_iff _ _) Hp) as [t ->].
  exists t. split; [reflexivity|]. split.
  - intros ->. now rewrite str_app_nil_r in Hne.
  - unfold trimPrefix. now rewrite Hp, dropBytes_app.
Qed.

(** X20: every candidate returned starts with the prefix followed by the
    returned suffix, and differs from the prefix: inserting the suffix never
    rules a candidate out. *)
Theorem suggestion_extends_every_candidate
    (table : list string) (w : world) (prefix : string) (tabCount : nat)
    (c : string) :
  c ∈ snd (autocompleteIn table w prefix tabCount) ->
  hasPrefix c (prefix +:+ fst (autocompleteIn table w prefix tabCount)) = true
  /\ c <> prefix.
Proof.
  unfold autocompleteIn.
  destruct (String.eqb prefix ""); [intros H; now apply not_elem_of_nil in H|].
  destruct (Nat.eqb _ 0); [intros H; now apply not_elem_of_nil in H|].
  set (found := fst (gather table w prefix)).
  assert (Hall : forall x, x ∈ sortStrings found ->
                           hasPrefix x prefix = true /\ x <> prefix).
  { intros x Hx. apply (proj1 (elem_of_sortStrings _ _)) in Hx.
    apply completes_iff, (gather_completes table w). exact Hx. }
  destruct (sortStrings found) as [|a [|b l]] eqn:Es; cbn [fst snd].
  - intros H.
    repeat match type of H with
           | context [if ?b then _ else _] => destruct b
           end; now apply not_elem_of_nil in H.
  - intros ->%list_elem_of_singleton.
    destruct (Hall a) as [Hp Hne]; [apply list_elem_of_here|].
    destruct (completes_split a prefix) as (t & -> & _ & ->);
      [now apply completes_iff|].
    split; [apply hasPrefix_refl | exact Hne].
  - assert (Hpre : hasPrefix (longestCommonPrefix (a :: b :: l)) prefix = true).
    { apply lcp_greatest; [discriminate|]. intros x Hx. now apply Hall. }
    destruct (Nat.ltb _ _); cbn [fst snd].
    + intros Hc. split; [|now apply Hall].
      destruct (proj1 (hasPrefix_iff _ _) Hpre) as [t Ht].
      rewrite Ht at 1. rewrite dropBytes_app, <- Ht. now apply lcp_common.
    + destruct (Nat.ltb 1 tabCount); cbn [fst snd];
        [|intros H; now apply not_elem_of_nil in H].
      intros Hc. rewrite str_app_nil_r. now apply Hall.
Qed.

Lemma suggestion_extends_every_candidate_witness :
  hasPrefix "clear"
    ("cl" +:+ fst (autocompleteIn builtinCMDs Dispatch.bareWorld "cl" 1)) = true
  /\ "clear" <> "cl".
Proof.
  apply (suggestion_extends_every_candidate builtinCMDs Dispatch.bareWorld
           "cl" 1 "clear").
  apply (bool_decide_unpack _). reflexivity.
Defined.

(** X21: when the builtin table names each builtin once, the candidates are
    returned in ascending byte order and without duplicates. *)
Theorem candidates_ascending_without_duplicates
    (table : list string) (w : world) (prefix : string) (tabCount : nat) :
  NoDup table ->
  ascending (snd (autocompleteIn table w prefix tabCount))
  /\ NoDup (snd (autocompleteIn table w prefix tabCount)).
Proof.
  intros Hnd.
  destruct (autocomplete_candidates table w prefix tabCount) as [-> | ->].
  - split; constructor.
  - split; [apply sortStrings_ascending|].
    rewrite (sortStrings_perm _). now apply gather_NoDup.
Qed.

Lemma candidates_ascending_without_duplicates_witness :
  ascending (snd (autocomplete Dispatch.bareWorld "c" 2))
  /\ NoDup (snd (autocomplete Dispatch.bareWorld "c" 2)).
Proof.
  apply (candidates_ascending_without_duplicates builtinCMDs
           Dispatch.bareWorld "c" 2).
  apply (bool_decide_unpack _). reflexivity.
Defined.

End CompletionMore.

(** ** More on the line reader *)

Section ReaderMore.
Import Completion Reader.

Lemma ordinaryKey_spec (rn : N) :
  ordinaryKey rn = true ->
  (rn <? 128)%N = true /\ (rn =? 3)%N = false /\ (rn =? 9)%N = false
  /\ (rn =? 10)%N = false /\ (rn =? 13)%N = false /\ (rn =? 127)%N = false.
Proof.
  unfold ordinaryKey. rewrite andb_true_iff, negb_true_iff, !orb_false_iff.
  tauto.
Qed.

Lemma handleRune_ordinary (table : list string) (w : world) (st : reader)
    (rn : N) :
  ordinaryKey rn = true ->
  handleRune table w st rn
  = (Reader (input st +:+ String (byte rn) "") "" 0,
     [printPromptWithInput (input st +:+ String (byte rn) "")], Reading).
Proof.
  intros (Hlt & H3 & H9 & H10 & H13 & H127)%ordinaryKey_spec.
  unfold handleRune, runeString. rewrite H3, H13, H10, H127, H9, Hlt.
  reflexivity.
Qed.

Lemma typeKeys_ordinary (table : list string) (w : world) (keys : list N) :
  forall st : reader,
    forallb ordinaryKey keys = true ->
    readerAfter (typeKeys table w st keys)
    = Reader (input st +:+ keyBytes keys)
             (match keys with [] => lastTabPrefix st | _ => "" end)
             (match keys with [] => tabPressCount st | _ => 0 end)
    /\ outcomeOf (typeKeys table w st keys) = Reading.
Proof.
  unfold readerAfter, outcomeOf.
  induction keys as [|rn keys IH]; intros st H.
  - cbn. rewrite str_app_nil_r. now destruct st.
  - cbn [forallb] in H. apply andb_prop in H as [Hk Hks].
    cbn [typeKeys]. rewrite (handleRune_ordinary _ _ _ _ Hk).
    specialize (IH (Reader (input st +:+ String (byte rn) "") "" 0) Hks).
    destruct (typeKeys table w _ keys) as [[st2 out2] o2].
    cbn [fst snd] in *. destruct IH as [-> ->]. split; [|reflexivity].
    cbn [input lastTabPrefix tabPressCount keyBytes].
    rewrite str_app_assoc. now destruct keys.
Qed.

Lemma typeKeys_app (table : list string) (w : world) (keys more : list N) :
  forall st : reader,
    outcomeOf (typeKeys table w st keys) = Reading ->
    readerAfter (typeKeys table w st (keys ++ more))
    = readerAfter (typeKeys table w (readerAfter (typeKeys table w st keys)) more)
    /\ outcomeOf (typeKeys table w st (keys ++ more))
       = outcomeOf (typeKeys table w (readerAfter (typeKeys table w st keys)) more).
Proof.
  unfold readerAfter, outcomeOf.
  induction keys as [|rn keys IH]; intros st H; [now cbn|].
  cbn [app typeKeys] in *.
  destruct (handleRune table w st rn) as [[st1 out1] o1].
  destruct o1; cbn [fst snd] in *; try discriminate.
  specialize (IH st1).
  destruct (typeKeys table w st1 keys) as [[st2 out2] o2].
  destruct (typeKeys table w st1 (keys ++ more)) as [[st3 out3] o3].
  cbn [fst snd] in *. now apply IH.
Qed.

(** X22: typing ASCII keys other than the control keys of the reader, then
    Enter, submits exactly the bytes typed after what the buffer held, and
    clears the completion state. *)
Theorem typed_line_is_submitted
    (table : list string) (w : world) (st : reader) (keys : list N) :
  forallb ordinaryKey keys = true ->
  outcomeOf (typeKeys table w st (keys ++ [13%N]))
    = Submitted (input st +:+ keyBytes keys)
  /\ readerAfter (typeKeys table w st (keys ++ [13%N]))
    = Reader (input st +:+ keyBytes keys) "" 0.
Proof.
  intros H. destruct (typeKeys_ordinary table w keys st H) as [Hst Ho].
  destruct (typeKeys_app table w keys [13%N] st Ho) as [-> ->].
  rewrite Hst. split; reflexivity.
Qed.

Lemma typed_line_is_submitted_witness :
  outcomeOf (typeKeys builtinCMDs Dispatch.bareWorld idle
               ([108; 115; 32; 45; 108] ++ [13])%N)
    = Submitted ("" +:+ "ls -l")
  /\ readerAfter (typeKeys builtinCMDs Dispatch.bareWorld idle
                    ([108; 115; 32; 45; 108] ++ [13])%N)
    = Reader ("" +:+ "ls -l") "" 0.
Proof.
  exact (typed_line_is_submitted builtinCMDs Dispatch.bareWorld idle
           [108; 115; 32; 45; 108]%N eq_refl).
Defined.

Lemma pressTab_state (table : list string) (w : world) (st : reader) :
  let st' := fst (pressTab table w st) in
  ((tabPressCount st' = 0 /\ lastTabPrefix st' = "")
   \/ (1 <= tabPressCount st' /\ lastTabPrefix st' = input st'))
  /\ hasPrefix (input st') (input st) = true.
Proof.
  unfold pressTab.
  destruct (containsSpace (input st));
    [cbn; split; [now left | apply hasPrefix_refl]|].
  destruct (String.eqb_spec (input st) (lastTabPrefix st)) as [E|E];
    cbn [negb input lastTabPrefix tabPressCount];
    destruct (autocompleteIn table w (input st) _) as [result candidates];
    repeat match goal with
           | |- context [if ?b then _ else _] => destruct b
           end;
    cbn [fst input lastTabPrefix tabPressCount];
    (split;
     [ first [ left; split; reflexivity
             | right; split; [lia | congruence] ]
     | first [ apply hasPrefix_refl
             | apply hasPrefix_iff; eexists; now rewrite str_app_assoc ] ]).
Qed.

(** X23: after any key but the interrupt, either the completion state is
    clear, or the press counter is positive and the stored prefix is the
    buffer. *)
Theorem completion_state_follows_the_buffer
    (table : list string) (w : world) (st : reader) (rn : N) :
  rn <> 3%N ->
  let st' := readerAfter (handleRune table w st rn) in
  (tabPressCount st' = 0 /\ lastTabPrefix st' = "")
  \/ (1 <= tabPressCount st' /\ lastTabPrefix st' = input st').
Proof.
  intros H3%N.eqb_neq. unfold readerAfter, handleRune. rewrite H3.
  destruct ((rn =? 13) || (rn =? 10))%N; [now left|].
  destruct (rn =? 127)%N; [now left|].
  destruct (rn =? 9)%N; [|now left].
  pose proof (pressTab_state table w st) as [H _].
  destruct (pressTab table w st) as [st1 out]. exact H.
Qed.

Lemma completion_state_follows_the_buffer_witness :
  (tabPressCount (readerAfter (handleRune builtinCMDs Dispatch.bareWorld
                                 (Reader "c" "" 0) 9)) = 0
   /\ lastTabPrefix (readerAfter (handleRune builtinCMDs Dispatch.bareWorld
                                    (Reader "c" "" 0) 9)) = "")
  \/ (1 <= tabPressCount (readerAfter (handleRune builtinCMDs Dispatch.bareWorld
                                         (Reader "c" "" 0) 9))
      /\ lastTabPrefix (readerAfter (handleRune builtinCMDs Dispatch.bareWorld
                                       (Reader "c" "" 0) 9))
         = input (readerAfter (handleRune builtinCMDs Dispatch.bareWorld
                                 (Reader "c" "" 0) 9))).
Proof.
  apply (completion_state_follows_the_buffer builtinCMDs Dispatch.bareWorld
           (Reader "c" "" 0) 9%N).
  discriminate.
Defined.

(** X24: no key but Backspace shortens or rewrites the buffer: the buffer
    before the key is a prefix of the buffer after it. *)
Theorem only_backspace_shortens_the_buffer
    (table : list string) (w : world) (st : reader) (rn : N) :
  rn <> 127%N ->
  hasPrefix (input (readerAfter (handleRune table w st rn))) (input st) = true.
Proof.
  intros H%N.eqb_neq. unfold readerAfter, handleRune. rewrite H.
  destruct (rn =? 3)%N; [apply hasPrefix_refl|].
  destruct ((rn =? 13) || (rn =? 10))%N; [apply hasPrefix_refl|].
  destruct (rn =? 9)%N.
  - pose proof (pressTab_state table w st) as [_ Hp].
    destruct (pressTab table w st) as [st1 out]. exact Hp.
  - apply hasPrefix_iff. now eexists.
Qed.

Lemma only_backspace_shortens_the_buffer_witness :
  hasPrefix
    (input (readerAfter (handleRune builtinCMDs Dispatch.bareWorld
                           (Reader "mkd" "" 0) 9)))
    "mkd" = true.
Proof.
  apply (only_backspace_shortens_the_buffer builtinCMDs Dispatch.bareWorld
           (Reader "mkd" "" 0) 9%N).
  discriminate.
Defined.

Lemma dropLast_app (s t : string) :
  t <> "" -> dropLast (s +:+ t) = s +:+ dropLast t.
Proof.
  intros Ht. destruct (snoc_dropLast t Ht) as [c Hc].
  rewrite Hc at 1. now rewrite <- str_app_assoc, dropLast_snoc.
Qed.

Lemma str_app_ne (s t : string) : t <> "" -> s +:+ t <> s.
Proof.
  intros Ht H. apply (f_equal String.length) in H.
  rewrite str_length_app in H. destruct t; [contradiction | cbn in H; lia].
Qed.

Lemma runeString_nonempty (rn : N) : runeString rn <> "".
Proof.
  unfold runeString.
  repeat match goal with
         | |- context [if ?b then _ else _] => destruct b
         end; discriminate.
Qed.

Lemma runeString_wide (rn : N) :
  (128 <= rn)%N -> dropLast (runeString rn) <> "".
Proof.
  intros H. unfold runeString.
  destruct (rn <? 128)%N eqn:E; [apply N.ltb_lt in E; lia|].
  repeat match goal with
         | |- context [if ?b then _ else _] => destruct b
         end; discriminate.
Qed.

(** X25: Backspace removes one byte, not one character: after an ASCII key
    it restores the buffer, after a key above U+007F it leaves the character's
    bytes but the last in the buffer. *)
Theorem backspace_removes_one_byte
    (table : list string) (w : world) (st : reader) (rn : N) :
  ((rn =? 3) || (rn =? 9) || (rn =? 10) || (rn =? 13) || (rn =? 127))%N
    = false ->
  let st2 := readerAfter (typeKeys table w st [rn; 127%N]) in
  input st2 = input st +:+ dropLast (runeString rn)
  /\ ((rn < 128)%N -> input st2 = input st)
  /\ ((128 <= rn)%N -> input st2 <> input st).
Proof.
  rewrite !orb_false_iff. intros ((((H3 & H9) & H10) & H13) & H127).
  assert (E : readerAfter (typeKeys table w st [rn; 127%N])
              = Reader (dropLast (input st +:+ runeString rn)) "" 0).
  { unfold readerAfter. cbn [typeKeys]. unfold handleRune at 1.
    rewrite H3, H13, H10, H127, H9. reflexivity. }
  cbn zeta. rewrite E. cbn [input].
  rewrite (dropLast_app _ _ (runeString_nonempty rn)).
  split; [reflexivity|]. split.
  - intros Hlt%N.ltb_lt. unfold runeString. rewrite Hlt. apply str_app_nil_r.
  - intros Hge. apply str_app_ne, runeString_wide, Hge.
Qed.

Lemma backspace_removes_one_byte_witness :
  input (readerAfter (typeKeys builtinCMDs Dispatch.bareWorld
                        (Reader "caf" "" 0) [233; 127]%N))
    = "caf" +:+ dropLast (runeString 233)
  /\ ((233 < 128)%N ->
      input (readerAfter (typeKeys builtinCMDs Dispatch.bareWorld
                            (Reader "caf" "" 0) [233; 127]%N)) = "caf")
  /\ ((128 <= 233)%N ->
      input (readerAfter (typeKeys builtinCMDs Dispatch.bareWorld
                            (Reader "caf" "" 0) [233; 127]%N)) <> "caf").
Proof.
  exact (backspace_removes_one_byte builtinCMDs Dispatch.bareWorld
           (Reader "caf" "" 0) 233%N eq_refl).
Defined.

(** X26: when exactly one candidate is gathered for a buffer without
    space, Tab replaces the buffer by the candidate followed by a space,
    redraws the line and clears the completion state. *)
Theorem unique_candidate_completes_the_word
    (table : list string) (w : world) (st : reader) (c : string) :
  containsSpace (input st) = false ->
  input st <> "" ->
  fst (gather table w (input st)) = [c] ->
  pressTab table w st
  = (Reader (c +:+ " ") "" 0, [printPromptWithInput (c +:+ " ")]).
Proof.
  intros Hsp Hne Hg. unfold pressTab. rewrite Hsp.
  assert (Ha : forall n, autocompleteIn table w (input st) n
                         = (trimPrefix c (input st), [c])).
  { intros n. unfold autocompleteIn. apply String.eqb_neq in Hne.
    now rewrite Hne, Hg. }
  rewrite Ha.
  destruct (completes_split c (input st)) as (t & Hc & Ht & ->).
  { apply (gather_completes table w). rewrite Hg. apply list_elem_of_here. }
  apply String.eqb_neq in Ht. cbn [length Nat.ltb Nat.leb andb negb Nat.eqb].
  rewrite Ht. cbn [negb]. now rewrite <- Hc.
Qed.

Lemma unique_candidate_completes_the_word_witness :
  pressTab builtinCMDs Dispatch.bareWorld (Reader "ty" "" 0)
  = (Reader ("type" +:+ " ") "" 0, [printPromptWithInput ("type" +:+ " ")]).
Proof.
  apply (unique_candidate_completes_the_word builtinCMDs Dispatch.bareWorld
           (Reader "ty" "" 0) "type"); [reflexivity | discriminate | reflexivity].
Defined.

End ReaderMore.

(** ** Quoting and redirection together *)

Section QuotingAndRedirection.
Import Tokenizer Redirect Dispatch.

Lemma isOperator_cases (op : string) :
  isOperator op = true ->
  op = ">>" \/ op = "1>>" \/ op = ">" \/ op = "1>" \/ op = "2>" \/ op = "2>>".
Proof.
  unfold isOperator, operatorOf.
  destruct (String.eqb_spec op ">>"); [tauto|].
  destruct (String.eqb_spec op "1>>"); [tauto|].
  destruct (String.eqb_spec op ">"); [tauto|].
  destruct (String.eqb_spec op "1>"); [tauto|].
  destruct (String.eqb_spec op "2>"); [tauto|].
  destruct (String.eqb_spec op "2>>"); [tauto|].
  discriminate.
Qed.

(** A word scanned after an unquoted space is scanned as from the start. *)
Lemma scan_after_space (pre word : string) :
  unquotedAfter pre ->
  scan init (pre +:+ String SPACE word)
  = prepend (parseCommand pre) (scan init word).
Proof.
  intros Hu. rewrite scan_app. cbn [scan].
  rewrite step_space_unquoted by exact Hu.
  set (st := scan init pre) in *.
  replace (scan (flush st) word)
    with (scan (prepend (result (flush st)) init) word)
    by (now rewrite <- flush_as_prepend).
  now rewrite scan_prepend.
Qed.

Lemma unquotedAfter_word (pre word : string) :
  unquotedAfter pre -> unquotedAfter word ->
  unquotedAfter (pre +:+ String SPACE word).
Proof.
  intros Hu Hw. unfold unquotedAfter. now rewrite (scan_after_space _ _ Hu).
Qed.

Lemma parse_three (pre word post : string) :
  unquotedAfter pre -> unquotedAfter word ->
  parseCommand (pre +:+ String SPACE (word +:+ String SPACE post))
  = parseCommand pre ++ parseCommand word ++ parseCommand post.
Proof.
  intros Hu Hw.
  rewrite <- (str_app_cons SPACE word), <- str_app_assoc.
  rewrite (parse_after_space _ _ (unquotedAfter_word _ _ Hu Hw)).
  now rewrite (parse_after_space _ _ Hu), <- app_assoc.
Qed.

(** X27: single quotes around a redirection operator do not protect it: the
    tokens are the same as without the quotes, so the operator still
    redirects. *)
Theorem quoted_operator_still_redirects (pre post op : string) :
  unquotedAfter pre ->
  isOperator op = true ->
  parseCommand
    (pre +:+ String SPACE
       (String SQUOTE (op +:+ String SQUOTE "") +:+ String SPACE post))
  = parseCommand (pre +:+ String SPACE (op +:+ String SPACE post)).
Proof.
  intros Hu Hop.
  assert (H : unquotedAfter op /\ unquotedAfter (String SQUOTE (op +:+ String SQUOTE ""))
              /\ parseCommand (String SQUOTE (op +:+ String SQUOTE ""))
                 = parseCommand op).
  { destruct (isOperator_cases op Hop) as [->|[->|[->|[->|[->| ->]]]]];
      repeat split; reflexivity. }
  destruct H as (H1 & H2 & H3).
  now rewrite (parse_three _ _ _ Hu H1), (parse_three _ _ _ Hu H2), H3.
Qed.

Lemma quoted_operator_still_redirects_witness :
  parseCommand
    ("echo" +:+ String SPACE
       (String SQUOTE (">" +:+ String SQUOTE "") +:+ String SPACE "x"))
  = parseCommand ("echo" +:+ String SPACE (">" +:+ String SPACE "x")).
Proof.
  apply (quoted_operator_still_redirects "echo" "x" ">");
    [repeat split; reflexivity | reflexivity].
Defined.



End QuotingAndRedirection.
